(** * docker-trim: the analysis pipeline of [init.py]

    A shallow embedding of the [DockerTrim] class of [init.py]: the
    access-log parser (a regular expression searched on every line of the
    trace), the path classifier, the set reducer, the entrypoint rewriting
    of [init_container], evidence retrieval and teardown. *)

From Stdlib Require Import String Ascii NArith.
From stdpp Require Import gmap list sorting.

Local Open Scope N_scope.
Local Open Scope list_scope.

(** ** Python text

    A Python [str] is a sequence of Unicode code points.  A code point is
    modelled as a number, a text as the list of its code points. *)

Abbreviation char := N (only parsing).
Abbreviation str := (list N) (only parsing).

(** [py] reads an ASCII literal as a Python text. *)
Definition py (s : string) : str :=
  map N_of_ascii (list_ascii_of_string s).

(** The double quote, U+0022. *)
Definition dq : char := 34.
(** The line feed, U+000A: the one character the regex dot refuses. *)
Definition lf : char := 10.
(** The carriage return, U+000D. *)
Definition cr : char := 13.

(** [s.startswith(prefix)] *)
Fixpoint startswith (s prefix : str) {struct prefix} : bool :=
  match prefix, s with
  | [], _ => true
  | _ :: _, [] => false
  | p :: prefix', c :: s' => (c =? p) && startswith s' prefix'
  end.

(** ** [str.splitlines()]

    The line boundaries of a Python [str]: LF, VT, FF, CR, FS, GS, RS,
    NEL, LS and PS; CR LF is one boundary.  The boundaries are dropped
    (keepends is off) and a text that ends in a boundary has no empty
    last line. *)
Definition is_linebreak (c : char) : bool :=
  bool_decide (c ∈ [10; 11; 12; 13; 28; 29; 30; 133; 8232; 8233]).

(** The scan of [splitlines]: [cur] is the line read so far, [after_cr]
    tells that the previous character was a CR, whose LF is swallowed. *)
Fixpoint splitlines_from (after_cr : bool) (cur : str) (s : str) : list str :=
  match s with
  | [] => match cur with [] => [] | _ => [cur] end
  | c :: s' =>
      if after_cr && (c =? lf) then splitlines_from false cur s'
      else if is_linebreak c then cur :: splitlines_from (c =? cr) [] s'
      else splitlines_from false (cur ++ [c]) s'
  end.

Definition splitlines (s : str) : list str := splitlines_from false [] s.

(** ** The fragment of [re] the parser uses

    Literals, ordered alternation, concatenation, the lazy [.*?] and
    numbered capturing groups. *)
Inductive pattern : Type :=
| Lit (l : str)
| Alt (r1 r2 : pattern)
| Cat (r1 r2 : pattern)
| AnyLazy
| Group (n : nat) (r : pattern).

(** [a|b|c]: the alternatives are tried from left to right. *)
Fixpoint alts (ls : list str) : pattern :=
  match ls with
  | [] => Lit []
  | [l] => Lit l
  | l :: ls' => Alt (Lit l) (alts ls')
  end.

(** The groups captured so far, by group number. *)
Abbreviation captures := (gmap nat (list N)) (only parsing).

(** [s] without the literal [l] in front, when [s] starts with it. *)
Fixpoint strip_prefix (l s : str) : option str :=
  match l, s with
  | [], _ => Some s
  | _ :: _, [] => None
  | p :: l', c :: s' => if c =? p then strip_prefix l' s' else None
  end.

(** [.*?] followed by [k]: the continuation is tried first, and one more
    character is consumed only when it fails; the dot takes any character
    but the line feed. *)
Fixpoint lazy_dot_star {A} (s : str) (k : str → option A) : option A :=
  match k s with
  | Some m => Some m
  | None =>
      match s with
      | [] => None
      | c :: s' => if c =? lf then None else lazy_dot_star s' k
      end
  end.

(** The backtracking matcher: [rmatch r s caps k] matches [r] at the front
    of [s] and hands the rest of the input and the captures to [k]; when
    [k] fails the next way of matching [r] is tried. *)
Fixpoint rmatch (r : pattern) (s : str) (caps : captures)
    (k : str → captures → option captures) : option captures :=
  match r with
  | Lit l =>
      match strip_prefix l s with
      | Some s' => k s' caps
      | None => None
      end
  | Alt r1 r2 =>
      match rmatch r1 s caps k with
      | Some m => Some m
      | None => rmatch r2 s caps k
      end
  | Cat r1 r2 => rmatch r1 s caps (λ s' caps', rmatch r2 s' caps' k)
  | AnyLazy => lazy_dot_star s (λ s', k s' caps)
  | Group n r' =>
      rmatch r' s caps
        (λ s' caps', k s' (<[n := take (length s - length s') s]> caps'))
  end.

(** [r.match(s)]: a match at the front of [s]. *)
Definition match_here (r : pattern) (s : str) : option captures :=
  rmatch r s ∅ (λ _ caps, Some caps).

(** [r.search(s)]: the match at the leftmost position that has one. *)
Fixpoint search (r : pattern) (s : str) : option captures :=
  match match_here r s with
  | Some m => Some m
  | None =>
      match s with
      | [] => None
      | _ :: s' => search r s'
      end
  end.

(** ** The access-log parser *)

Definition syscall_names : list str :=
  [py "openat"; py "open"; py "access"; py "stat"; py "faccessat";
   py "lstat"; py "newfstatat"; py "fstat"; py "readlinkat";
   py "readlink"; py "statx"].

(** [(openat|open|...|statx)] *)
Definition file_access_syscalls : pattern := Group 1 (alts syscall_names).

(** [.*?"(.*?)"], what follows the syscall name in the regex. *)
Definition regex_tail : pattern :=
  Cat AnyLazy (Cat (Lit [dq]) (Cat (Group 2 AnyLazy) (Lit [dq]))).

(** [rf'{file_access_syscalls}.*?"(.*?)"'] *)
Definition regex : pattern := Cat file_access_syscalls regex_tail.

(** The body of the loop over the lines: [accessed_files] after [line]. *)
Definition parse_line (accessed_files : gset str) (line : str) : gset str :=
  match search regex line with
  | Some m =>
      match m !! 2%nat with
      | Some filepath =>
          match filepath with
          | [] => accessed_files
          | _ :: _ => {[filepath]} ∪ accessed_files
          end
      | None => accessed_files
      end
  | None => accessed_files
  end.

Definition parse_strace_file_accesses (log : str) : gset str :=
  foldl parse_line ∅ (splitlines log).

(** *** What the regex finds, read off the line

    [cut_at_dq s] splits [s] at its first double quote. *)
Fixpoint cut_at_dq (s : str) : option (str * str) :=
  match s with
  | [] => None
  | c :: s' =>
      if c =? dq then Some ([], s')
      else match cut_at_dq s' with
           | Some (a, b) => Some (c :: a, b)
           | None => None
           end
  end.

(** The text between the first two double quotes of [s]. *)
Definition first_quoted (s : str) : option str :=
  match cut_at_dq s with
  | Some (_, r) => fst <$> cut_at_dq r
  | None => None
  end.

(** The first of the literals [names], in their order, that starts [s]
    and whose rest [k] accepts. *)
Fixpoint first_alt {A} (names : list str) (s : str) (k : str → option A)
    : option A :=
  match names with
  | [] => None
  | l :: ls =>
      match strip_prefix l s ≫= k with
      | Some m => Some m
      | None => first_alt ls s k
      end
  end.

(** A recognized syscall name starts [s]. *)
Definition syscall_here (s : str) : bool :=
  existsb (startswith s) syscall_names.

(** The quoted text the search reports for a line: the first quoted text
    of the leftmost suffix that starts with a syscall name and still has
    two double quotes. *)
Fixpoint search_spec (s : str) : option str :=
  match (if syscall_here s then first_quoted s else None) with
  | Some q => Some q
  | None =>
      match s with
      | [] => None
      | _ :: s' => search_spec s'
      end
  end.


(** *** The vocabulary of the claims about the parser *)

(** The paths one line adds to an empty set. *)
Definition line_paths (line : str) : gset str := parse_line ∅ line.

(** A recognized syscall name occurs in [line] at offset [i]. *)
Definition syscall_at (line : str) (i : nat) : Prop :=
  ∃ name, name ∈ syscall_names ∧ name `prefix_of` drop i line.

(** [s] holds a quoted text: two double quotes. *)
Definition has_quoted (s : str) : Prop :=
  ∃ a q b, s = a ++ dq :: q ++ dq :: b.

(** The line mentions a recognized syscall name followed, anywhere later
    on the line, by a quoted text. *)
Definition syscall_then_quoted (line : str) : Prop :=
  ∃ pre name rest,
    line = pre ++ name ++ rest ∧ name ∈ syscall_names ∧ has_quoted rest.

(** [q] is the first quoted text after a syscall name on [line]: the text
    between the first two double quotes that follow the leftmost
    occurrence of a recognized name. *)
Definition first_quoted_after_syscall (line q : str) : Prop :=
  ∃ i a b,
    syscall_at line i ∧ (∀ j, syscall_at line j → (i ≤ j)%nat) ∧
    drop i line = a ++ dq :: q ++ dq :: b ∧ (dq ∉ a) ∧ (dq ∉ q).

(** The line of the spec's example,
    [openat(AT_FDCWD, "/etc/passwd", O_RDONLY) = 3]. *)
Definition openat_line : str :=
  py "openat(AT_FDCWD, " ++ [dq] ++ py "/etc/passwd" ++ [dq]
    ++ py ", O_RDONLY) = 3".

(** [newfstatat(3, "", {st_mode=S_IFREG}, AT_EMPTY_PATH) = 0], the shape
    strace prints for a stat on an open descriptor. *)
Definition empty_path_line : str :=
  py "newfstatat(3, " ++ [dq; dq] ++ py ", {st_mode=S_IFREG}, AT_EMPTY_PATH) = 0".

(** [fstat(3, {st_mode=S_IFREG}) = 0]: a recognized name, nothing quoted. *)
Definition fstat_line : str := py "fstat(3, {st_mode=S_IFREG}) = 0".

(** [write(1, "hello", 5) = 5]: a quoted text, no recognized name. *)
Definition write_line : str :=
  py "write(1, " ++ [dq] ++ py "hello" ++ [dq] ++ py ", 5) = 5".

(** [open("/tmp/x", O_RDONLY) = 3] *)
Definition open_tmp_line : str :=
  py "open(" ++ [dq] ++ py "/tmp/x" ++ [dq] ++ py ", O_RDONLY) = 3".

(** [stat("/app/config.yaml", {st_mode=S_IFREG}) = 0] *)
Definition stat_app_line : str :=
  py "stat(" ++ [dq] ++ py "/app/config.yaml" ++ [dq]
    ++ py ", {st_mode=S_IFREG}) = 0".

(** Two lines in one text, separated by a line feed. *)
Definition two_lines (l1 l2 : str) : str := l1 ++ [lf] ++ l2.

(** ** The path classifier *)

Definition COMMON_SYSTEM_DIRS : list str :=
  [py "/dev"; py "/proc"; py "/sys"; py "/tmp"; py "/var/log"; py "/run";
   py "/var/run"; py "/var/tmp"; py "/var/lib"; py "/etc/ssl";
   py "/usr/share/ca-certificates"].

Definition is_ignorable (filepath : str) : bool :=
  if negb (startswith filepath (py "/")) then false
  else existsb (λ prefix, startswith filepath prefix) COMMON_SYSTEM_DIRS.

(** [{f for f in accessed_files if not DockerTrim.is_ignorable(f)}]: a new
    set, filled while the members of [accessed_files] are visited. *)
Definition filter_accessed_files (accessed_files : gset str) : gset str :=
  foldl (λ result f, if negb (is_ignorable f) then {[f]} ∪ result else result)
    ∅ (elements accessed_files).

(** ** The set reducer *)

(** The dictionary [compare_file_sets] returns, by its two keys. *)
Record file_diff : Type := FileDiff {
  added_files : list str;
  deleted_files : list str
}.

(** [list(s)] visits every member of the set once; the order is the
    set's own. *)
Definition compare_file_sets (before after : gset str) : file_diff :=
  let deleted := before ∖ after in
  let added := after ∖ before in
  {| added_files := elements added; deleted_files := elements deleted |}.

(** ** Set objects

    Python passes a set by reference.  The store maps the address of every
    live set object to its members; a set expression builds its result in
    a new object and leaves its operands alone. *)
Module Store.

Abbreviation heap := (gmap nat (gset (list N))) (only parsing).

(** A new object holding [s]: its address and the store with it. *)
Definition alloc (s : gset str) (h : heap) : nat * heap :=
  let l := fresh (dom h) in (l, <[l := s]> h).

(** The call [filter_accessed_files(accessed_files)] on the object at
    [accessed_files]; [None] when nothing lives there. *)
Definition filter_accessed_files (accessed_files : nat) (h : heap)
    : option (nat * heap) :=
  match h !! accessed_files with
  | Some s => Some (alloc (filter_accessed_files s) h)
  | None => None
  end.

(** The call [compare_file_sets(before, after)]: the two differences
    are new set objects, the lists of the dictionary are built from
    them. *)
Definition compare_file_sets (before after : nat) (h : heap)
    : option (file_diff * heap) :=
  match h !! before, h !! after with
  | Some b, Some a =>
      let '(deleted, h1) := alloc (b ∖ a) h in
      let '(added, h2) := alloc (a ∖ b) h1 in
      match h2 !! added, h2 !! deleted with
      | Some sa, Some sd =>
          Some ({| added_files := elements sa;
                   deleted_files := elements sd |}, h2)
      | _, _ => None
      end
  | _, _ => None
  end.

End Store.

(** ** The session: the engine, exceptions and effects

    The methods that talk to the container engine are modelled in a monad
    of their own: a computation reads and writes the variables of the
    script, appends what it does to a trace, and returns or raises. *)

(** The exception classes the script meets: what the engine client, the
    requests library, the file system and the codec raise, and what the
    script raises itself.  [ImageNotFound] is a [NotFound], a [NotFound]
    an [APIError], an [APIError] a [RequestException] (through
    [HTTPError]), a [Timeout] too, a [RequestException] an [OSError]; all
    derive from [Exception]. *)
Inductive exc_class : Type :=
| Exception | RuntimeError | OSError | UnicodeDecodeError
| RequestException | Timeout | APIError | NotFound | ImageNotFound.

#[global] Instance exc_class_eq_dec : EqDecision exc_class.
Proof. solve_decision. Defined.

(** The classes of the method resolution order of a class. *)
Definition mro (c : exc_class) : list exc_class :=
  match c with
  | Exception => [Exception]
  | RuntimeError => [RuntimeError; Exception]
  | OSError => [OSError; Exception]
  | UnicodeDecodeError => [UnicodeDecodeError; Exception]
  | RequestException => [RequestException; OSError; Exception]
  | Timeout => [Timeout; RequestException; OSError; Exception]
  | APIError => [APIError; RequestException; OSError; Exception]
  | NotFound => [NotFound; APIError; RequestException; OSError; Exception]
  | ImageNotFound =>
      [ImageNotFound; NotFound; APIError; RequestException; OSError; Exception]
  end.

(** An exception: its class and [str(e)]. *)
Record exn : Type := Exn { exc_type : exc_class; exc_str : str }.

Definition isinstance (e : exn) (c : exc_class) : bool :=
  bool_decide (c ∈ mro (exc_type e)).

Inductive outcome (A : Type) : Type :=
| Returns (a : A)
| Raises (e : exn).
Arguments Returns {A} a.
Arguments Raises {A} e.

(** [Entrypoint] and [Cmd] of an image configuration: absent, a single
    string or a sequence of strings. *)
Inductive cmdval : Type :=
| CNone
| CStr (s : str)
| CList (l : list str).

(** The truth value of [if x:]. *)
Definition truthy (x : cmdval) : bool :=
  match x with
  | CNone => false
  | CStr [] => false
  | CStr (_ :: _) => true
  | CList [] => false
  | CList (_ :: _) => true
  end.

(** A container handle, by its [id]. *)
Record Container : Type := { id : str }.

(** The dictionary of [get_memory_usage]: usage, limit and, in place of
    the rounded percentage, the pair it is computed from; or the error. *)
Inductive mem_stats : Type :=
| MemStats (memory_usage_bytes : Z) (memory_limit_bytes : option Z)
    (usage_pct : option (Z * Z))
| MemError (error : str).

(** A value interpolated in a printed f-string. *)
Inductive arg : Type :=
| AStr (s : str)
| ACmd (c : cmdval)
| AList (l : list str)
| AInt (z : Z)
| ANat (n : nat)
| AMem (m : mem_stats).

(** What a run does, in order: the text it prints (the f-string and the
    values of its fields) and the calls it makes. *)
Inductive event : Type :=
| Print (fstring : string) (args : list arg)
| ImagesGet (image : str)
| MkTemp
| WriteWrapper (path : str)
| Chmod (path : str)
| ContainersRun (image entrypoint : str) (command : list str) (mount : str)
| Sleep (seconds : nat)
| Reload (c : Container)
| Logs (c : Container)
| Stop (c : Container)
| Remove (c : Container)
| PathExists (path : str)
| Unlink (path : str)
| ExecRun (c : Container) (cmd : str)
| Post
| Stats (container_id : str).

(** How the world answers: one answer for every place of the script that
    asks.  No place is reached twice in a run, so every run of the script
    against an engine is the run of one scenario. *)
Record scenario : Type := {
  images_get : outcome (cmdval * cmdval);
  mktemp : outcome str;
  write_wrapper : outcome unit;
  chmod : outcome unit;
  containers_run : outcome Container;
  reload : outcome str;
  logs_startup : outcome (list N);
  logs_api_error : outcome (list N);
  post : outcome (Z * str);
  logs_session : outcome (list N);
  exec_cat : outcome (Z * list N);
  exec_find : outcome (Z * list N);
  stats : outcome (Z * option Z);
  stop : outcome unit;
  remove : outcome unit;
  path_exists : bool;
  unlink : outcome unit;
  decode : list N → option str
}.

(** The variables a run reads and writes, and its trace. *)
Record state : Type := {
  trace : list event;
  wrapper_script_path_host : option str;
  local_container : option Container;
  trimmer : bool;
  container : option Container
}.

Definition initial : state :=
  {| trace := []; wrapper_script_path_host := None;
     local_container := None; trimmer := false; container := None |}.

Definition M (A : Type) : Type := state → outcome A * state.

#[global] Instance M_ret : MRet M := λ A a s, (Returns a, s).
#[global] Instance M_bind : MBind M := λ A B f m s,
  match m s with
  | (Returns a, s') => f a s'
  | (Raises e, s') => (Raises e, s')
  end.

Definition raise {A} (c : exc_class) (msg : str) : M A :=
  λ s, (Raises (Exn c msg), s).

Definition reraise {A} (e : exn) : M A := λ s, (Raises e, s).

(** The state with one more event on its trace. *)
Definition log (ev : event) (s : state) : state :=
  {| trace := trace s ++ [ev];
     wrapper_script_path_host := wrapper_script_path_host s;
     local_container := local_container s;
     trimmer := trimmer s; container := container s |}.

(** The state with more events on its trace, the first first. *)
Definition logs (evs : list event) (s : state) : state :=
  foldl (λ s ev, log ev s) s evs.

Definition with_wrapper_script_path_host (v : option str) (s : state) : state :=
  {| trace := trace s; wrapper_script_path_host := v;
     local_container := local_container s;
     trimmer := trimmer s; container := container s |}.

Definition with_local_container (v : option Container) (s : state) : state :=
  {| trace := trace s;
     wrapper_script_path_host := wrapper_script_path_host s;
     local_container := v;
     trimmer := trimmer s; container := container s |}.

Definition with_trimmer (v : bool) (s : state) : state :=
  {| trace := trace s;
     wrapper_script_path_host := wrapper_script_path_host s;
     local_container := local_container s;
     trimmer := v; container := container s |}.

Definition with_container (v : option Container) (s : state) : state :=
  {| trace := trace s;
     wrapper_script_path_host := wrapper_script_path_host s;
     local_container := local_container s;
     trimmer := trimmer s; container := v |}.

(** An effect, recorded, with the answer of the world. *)
Definition call {A} (ev : event) (answer : outcome A) : M A :=
  λ s, (answer, log ev s).

Definition print (fstring : string) (args : list arg) : M unit :=
  call (Print fstring args) (Returns ()).

Definition get {A} (field : state → A) : M A := λ s, (Returns (field s), s).

Definition set_wrapper_script_path_host (v : option str) : M unit :=
  λ s, (Returns (), with_wrapper_script_path_host v s).

Definition set_local_container (v : option Container) : M unit :=
  λ s, (Returns (), with_local_container v s).

Definition set_trimmer (v : bool) : M unit :=
  λ s, (Returns (), with_trimmer v s).

Definition set_container (v : option Container) : M unit :=
  λ s, (Returns (), with_container v s).

(** The first [except] clause, in their order, whose class the exception
    is an instance of. *)
Fixpoint handler_for {A} (clauses : list (exc_class * (exn → M A))) (e : exn)
    : option (M A) :=
  match clauses with
  | [] => None
  | (c, h) :: clauses' =>
      if isinstance e c then Some (h e) else handler_for clauses' e
  end.

(** [try: body except c1 as e: h1 except c2 as e: h2 ...]: an exception
    of the body goes to the first clause that takes it, or out; what a
    handler raises goes out. *)
Definition try_except {A} (body : M A)
    (clauses : list (exc_class * (exn → M A))) : M A :=
  λ s,
    match body s with
    | (Returns a, s') => (Returns a, s')
    | (Raises e, s') =>
        match handler_for clauses e with
        | Some h => h s'
        | None => (Raises e, s')
        end
    end.

(** [try: body finally: final]: [final] runs however the body ends; the
    body's end stands unless [final] raises. *)
Definition try_finally {A} (body : M A) (final : M unit) : M A :=
  λ s,
    match body s with
    | (r, s') =>
        match final s' with
        | (Returns _, s'') => (r, s'')
        | (Raises e, s'') => (Raises e, s'')
        end
    end.

(** [try: body except: h], the bare clause. *)
Definition try_except_all {A} (body : M A) (h : M A) : M A :=
  λ s,
    match body s with
    | (Returns a, s') => (Returns a, s')
    | (Raises _, s') => h s'
    end.

(** ** The class [DockerTrim] *)

Definition log_path_in_container : str := py "/tmp/strace.log".

Section DockerTrim.

(** The scenario the run meets, and [self.image]. *)
Variable E : scenario.
Variable image : str.

(** [output.decode()] *)
Definition decode_bytes (output : list N) : M str :=
  match decode E output with
  | Some text => mret text
  | None => raise UnicodeDecodeError (py "invalid start byte")
  end.

Definition _get_image_config : M (cmdval * cmdval) :=
  try_except
    (call (ImagesGet image) (images_get E))
    [(ImageNotFound, λ _,
        raise RuntimeError
          (py "Image '" ++ image ++ py "' not found during inspection."));
     (APIError, λ e,
        raise RuntimeError
          (py "Error inspecting image '" ++ image ++ py "': " ++ exc_str e))].

(** [command_to_wrap] after the two [if] blocks of [init_container]:
    [append] for a string, [extend] for a sequence. *)
Definition command_to_wrap (original_entrypoint original_cmd : cmdval)
    : list str :=
  let command_to_wrap := [] in
  let command_to_wrap :=
    if truthy original_entrypoint then
      match original_entrypoint with
      | CStr s => command_to_wrap ++ [s]
      | CList l => command_to_wrap ++ l
      | CNone => command_to_wrap
      end
    else command_to_wrap in
  let command_to_wrap :=
    if truthy original_cmd then
      match original_cmd with
      | CStr s => command_to_wrap ++ [s]
      | CList l => command_to_wrap ++ l
      | CNone => command_to_wrap
      end
    else command_to_wrap in
  command_to_wrap.

Definition wrapper_container_path : str := py "/wrapper.sh".

(** The [try] block of [init_container] after [client.containers.run]:
    the wait and the readiness check. *)
Definition check_running (c : Container) : M Container :=
  set_local_container (Some c);;
  print "Container started: {}" [AStr (id c)];;
  call (Sleep 5) (Returns ());;
  status ← call (Reload c) (reload E);
  if bool_decide (status ≠ py "running") then
    output ← call (Logs c) (logs_startup E);
    logs ← decode_bytes output;
    print "Container logs on startup failure:" [];;
    print "{}" [AStr logs];;
    raise RuntimeError (py "Container failed to start. Status: " ++ status)
  else mret c.

(** The [try] block of [init_container] from [client.containers.run]
    on. *)
Definition run_and_check (command : list str) (path : str) : M Container :=
  c ← call (ContainersRun image wrapper_container_path command path)
        (containers_run E);
  check_running c.

(** The [try] block of [init_container]. *)
Definition init_container_body : M Container :=
  '(original_entrypoint, original_cmd) ← _get_image_config;
  print "Image Original Entrypoint: {}" [ACmd original_entrypoint];;
  print "Image Original Cmd: {}" [ACmd original_cmd];;
  let command := command_to_wrap original_entrypoint original_cmd in
  match command with
  | [] =>
      raise RuntimeError
        (py "Could not determine the command to wrap from image '" ++ image
           ++ py "'. Does it have an ENTRYPOINT or CMD?")
  | _ :: _ =>
      print "Command sequence being wrapped: {}" [AList command];;
      path ← call MkTemp (mktemp E);
      set_wrapper_script_path_host (Some path);;
      call (WriteWrapper path) (write_wrapper E);;
      call (Chmod path) (chmod E);;
      print "Created temporary wrapper script: {}" [AStr path];;
      run_and_check command path
  end.

(** The [except] clauses of [init_container]. *)
Definition init_container_clauses : list (exc_class * (exn → M Container)) :=
  [(ImageNotFound, λ _,
      raise RuntimeError (py "Image '" ++ image ++ py "' not found."));
   (APIError, λ e,
      c ← get local_container;
      match c with
      | Some c =>
          try_except_all
            (output ← call (Logs c) (logs_api_error E);
             logs ← decode_bytes output;
             print "Container logs on API error during run:" [];;
             print "{}" [AStr logs])
            (print "Could not retrieve container logs." [])
      | None => mret ()
      end;;
      raise RuntimeError (py "Error starting container: " ++ exc_str e));
   (Exception, λ e,
      raise RuntimeError
        (py "An unexpected error occurred during container initialization: "
           ++ exc_str e))].

Definition init_container : M Container :=
  set_local_container None;;
  try_except init_container_body init_container_clauses.

(** The [except] clauses of [stop_container]. *)
Definition stop_container_clauses (c : Container)
    : list (exc_class * (exn → M unit)) :=
  [(NotFound, λ _,
      print "Error: Container {} not found during stop." [AStr (id c)]);
   (APIError, λ e,
      print "Error stopping container {}: {}" [AStr (id c); AStr (exc_str e)]);
   (Exception, λ e,
      print "An unexpected error occurred while stopping container {}: {}"
        [AStr (id c); AStr (exc_str e)])].

Definition stop_container (c : Container) : M unit :=
  try_except
    (print "Stopping container {}..." [AStr (id c)];;
     call (Stop c) (stop E);;
     print "Container {} stopped." [AStr (id c)])
    (stop_container_clauses c).

(** The [except] clauses of [remove_container]. *)
Definition remove_container_clauses (c : Container)
    : list (exc_class * (exn → M unit)) :=
  [(NotFound, λ _,
      print "Error: Container {} not found during remove." [AStr (id c)]);
   (APIError, λ e,
      print "Error removing container {}: {}" [AStr (id c); AStr (exc_str e)]);
   (Exception, λ e,
      print "An unexpected error occurred while removing container {}: {}"
        [AStr (id c); AStr (exc_str e)])].

Definition remove_container (c : Container) : M unit :=
  try_except
    (print "Removing container {}..." [AStr (id c)];;
     call (Remove c) (remove E);;
     print "Container {} removed." [AStr (id c)])
    (remove_container_clauses c).

(** The second [if] block of [cleanup]: the wrapper script is deleted
    from the host when its path is set and exists. *)
Definition remove_wrapper_script : M unit :=
  path ← get wrapper_script_path_host;
  match path with
  | Some (ch :: rest) =>
      let path := ch :: rest in
      there ← call (PathExists path) (Returns (path_exists E));
      if there : bool then
        try_except
          (call (Unlink path) (unlink E);;
           print "Cleaned up temporary wrapper script: {}" [AStr path])
          [(OSError, λ e,
              print "Error cleaning up temporary wrapper script {}: {}"
                [AStr path; AStr (exc_str e)])];;
        set_wrapper_script_path_host None
      else mret ()
  | _ => mret ()
  end.

(** [cleanup(self, container=None)] *)
Definition cleanup (container : option Container) : M unit :=
  match container with
  | Some c => stop_container c;; remove_container c
  | None => mret ()
  end;;
  remove_wrapper_script.

Definition get_memory_usage (container_id : str) : M mem_stats :=
  try_except
    ('(mem_usage, mem_limit) ← call (Stats container_id) (stats E);
     match mem_limit with
     | Some (Zpos l) =>
         mret (MemStats mem_usage mem_limit (Some (mem_usage, Zpos l)))
     | Some (Zneg l) =>
         mret (MemStats mem_usage mem_limit (Some (mem_usage, Zneg l)))
     | _ =>
         print "Warning: Container memory limit not found or is 0." [];;
         mret (MemStats mem_usage mem_limit None)
     end)
    [(Exception, λ e, mret (MemError (exc_str e)))].

Definition trigger_lambda_in_container : M (Z * str) :=
  try_except
    ('(status_code, text) ← call Post (post E);
     if bool_decide (300 ≤ status_code)%Z then
       mret (status_code, py "Error response from Lambda: " ++ text)
     else mret (status_code, text))
    [(Timeout, λ _,
        mret (504%Z,
              py "Timeout connecting to or receiving response from Lambda."));
     (RequestException, λ e,
        mret (500%Z, py "Error calling Lambda endpoint: " ++ exc_str e))].

(** [find "{path}" -type f] *)
Definition find_command (path : str) : str :=
  py "find " ++ [dq] ++ path ++ [dq] ++ py " -type f".

Definition list_container_files (c : Container) (path : str)
    : M (gset str) :=
  try_except
    ('(exit_code, output) ← call (ExecRun c (find_command path)) (exec_find E);
     if bool_decide (exit_code = 0%Z) then
       text ← decode_bytes output;
       let files := splitlines text in
       mret (list_to_set (filter (λ f, f ≠ []) files))
     else
       print "Error listing files in container at {}. Exit code: {}"
         [AStr path; AInt exit_code];;
       text ← decode_bytes output;
       print "Output: {}" [AStr text];;
       mret ∅)
    [(Exception, λ e,
        print "Exception listing files in container: {}" [AStr (exc_str e)];;
        mret ∅)].

Definition retrieve_strace_log (c : Container) (log_path : str) : M str :=
  try_except
    ('(exit_code, output) ← call (ExecRun c (py "cat " ++ log_path)) (exec_cat E);
     if bool_decide (exit_code = 0%Z) then decode_bytes output
     else
       print "Error retrieving strace log from {}. Exit code: {}"
         [AStr log_path; AInt exit_code];;
       text ← decode_bytes output;
       print "Output: {}" [AStr text];;
       mret [])
    [(Exception, λ e,
        print "Exception retrieving strace log: {}" [AStr (exc_str e)];;
        mret [])].

End DockerTrim.

(** ** The script *)

(** The order of Python on [str]: by code points, a prefix first. *)
Fixpoint str_leb (a b : str) : bool :=
  match a, b with
  | [], _ => true
  | _ :: _, [] => false
  | x :: a', y :: b' =>
      if x <? y then true else if y <? x then false else str_leb a' b'
  end.

(** [sorted(list(s))] *)
Definition sorted (s : gset str) : list str :=
  merge_sort (λ a b, Is_true (str_leb a b)) (elements s).

(** [for f in l: print(f)] *)
Fixpoint print_each (l : list str) : M unit :=
  match l with
  | [] => mret ()
  | f :: l' => print "{}" [AStr f];; print_each l'
  end.

Section script.

Variable E : scenario.

(** The image of [DockerTrim("docker-image:test")]. *)
Definition script_image : str := py "docker-image:test".

(** The block under [if container:]. *)
Definition analysis (c : Container) : M unit :=
  print "\n--- Triggering Lambda ---" [];;
  '(status, output) ← trigger_lambda_in_container E;
  print "Lambda invocation status: {}" [AInt status];;
  print "Lambda output snippet: {}..." [AStr (take 500 output)];;
  (if bool_decide (status ≠ 200%Z) then
     print "Lambda invocation failed. Cannot proceed with log analysis." [];;
     try_except
       (logs ← call (Logs c) (logs_session E);
        full_logs ← decode_bytes E logs;
        print "\n--- Full container logs ---" [];;
        print "{}" [AStr full_logs];;
        print "---------------------------" [])
       [(Exception, λ log_e,
           print "Could not retrieve full container logs: {}"
             [AStr (exc_str log_e)])]
   else
     print "\n--- Retrieving strace log ---" [];;
     log ← retrieve_strace_log E c log_path_in_container;
     match log with
     | [] => print "Strace log is empty or could not be retrieved." []
     | _ :: _ =>
         print "Retrieved strace log ({} bytes). Parsing..." [ANat (length log)];;
         let raw_accesses := parse_strace_file_accesses log in
         print "Found {} raw file access paths." [ANat (size raw_accesses)];;
         let filtered_accesses := filter_accessed_files raw_accesses in
         print "\n--- Files Accessed by Lambda (Filtered) ---" [];;
         print_each (sorted filtered_accesses);;
         print "Total filtered unique file accesses: {}"
           [ANat (size filtered_accesses)]
     end);;
  print "\n--- Memory Usage ---" [];;
  mem_stats ← get_memory_usage E (id c);
  print "Memory Stats: {}" [AMem mem_stats].

(** The [try] block of the script. *)
Definition script_body : M unit :=
  set_trimmer true;;
  set_wrapper_script_path_host None;;
  c ← init_container E script_image;
  set_container (Some c);;
  c ← get container;
  match c with
  | Some c => analysis c
  | None => mret ()
  end.

(** The [finally] block of the script. *)
Definition script_finally : M unit :=
  t ← get trimmer;
  if t : bool then c ← get container; cleanup E c else mret ().

(** The [except] clauses of the script. *)
Definition script_clauses : list (exc_class * (exn → M unit)) :=
  [(RuntimeError, λ e, print "Script error: {}" [AStr (exc_str e)]);
   (Exception, λ e,
      print "An unexpected script error occurred: {}" [AStr (exc_str e)])].

(** The script of [init.py], from [container = None] to the end of its
    [finally]. *)
Definition script : M unit :=
  set_container None;;
  set_trimmer false;;
  try_finally (try_except script_body script_clauses) script_finally.

End script.

(** *** The vocabulary of the claims about the session *)

(** As the spec has it: the sequence a declared entrypoint or command
    stands for; an absent or empty one stands for no element. *)
Definition spec_sequence (x : cmdval) : list str :=
  match x with
  | CNone => []
  | CStr [] => []
  | CStr (ch :: s) => [ch :: s]
  | CList l => l
  end.

(** The event is a stop or a remove of a container. *)
Definition is_teardown (ev : event) : bool :=
  match ev with Stop _ | Remove _ => true | _ => false end.

(** A computation that emits events of the kind [p]: it only adds events
    to the trace, all of them of that kind, and leaves the variables
    [trimmer] and [container] of the script alone. *)
Definition emits {A} (p : event → bool) (m : M A) : Prop :=
  ∀ s, ∃ evs,
    trace (m s).2 = trace s ++ evs ∧ Forall (λ ev, p ev = true) evs ∧
    trimmer (m s).2 = trimmer s ∧ container (m s).2 = container s.

(** The event is printed text. *)
Definition is_print (ev : event) : bool :=
  match ev with Print _ _ => true | _ => false end.

(** The calls of a trace: what is left when the printed text is dropped. *)
Definition calls (evs : list event) : list event :=
  List.filter (λ ev, negb (is_print ev)) evs.

(** A scenario in which everything the script asks for succeeds, but the
    container has exited when its status is read after the wait: the
    image declares the command [python app.py] and no entrypoint. *)
Definition exited_scenario : scenario :=
  {| images_get := Returns (CNone, CList [py "python"; py "app.py"]);
     mktemp := Returns (py "/tmp/strace_wrapper_k3x.sh");
     write_wrapper := Returns ();
     chmod := Returns ();
     containers_run := Returns {| id := py "4f2a" |};
     reload := Returns (py "exited");
     logs_startup := Returns (py "exec: strace: not found");
     logs_api_error := Returns [];
     post := Returns (200%Z, py "ok");
     logs_session := Returns [];
     exec_cat := Returns (1%Z, py "cat: /tmp/strace.log: No such file");
     exec_find := Raises (Exn APIError (py "409 Conflict: container is not running"));
     stats := Returns (1048576%Z, Some 0%Z);
     stop := Returns ();
     remove := Returns ();
     path_exists := true;
     unlink := Returns ();
     decode := λ output, Some output |}.

(** The command run in the container did not succeed: it raised, or its
    exit code is not zero. *)
Definition exec_failed (answer : outcome (Z * list N)) : Prop :=
  match answer with
  | Returns (exit_code, _) => exit_code ≠ 0%Z
  | Raises _ => True
  end.

(** What the answer raises, when it raises, is an instance of [c]. *)
Definition raises_only {A} (c : exc_class) (answer : outcome A) : Prop :=
  match answer with
  | Returns _ => True
  | Raises e => isinstance e c = true
  end.

(** The state in which the script calls [init_container]: [trimmer] is
    set, [container] is [None], nothing has happened yet. *)
Definition script_start : state :=
  with_wrapper_script_path_host None
    (with_trimmer true (with_trimmer false (with_container None initial))).

(** A scenario in which the session succeeds and the teardown does not:
    the container is running after the wait, the invocation answers 200
    and the trace log holds two accesses; then the container is already
    gone at the stop, the remove is refused and the wrapper script cannot
    be deleted. *)
Definition running_scenario : scenario :=
  {| images_get := Returns (CStr (py "/lambda-entrypoint.sh"),
                            CList [py "lambda_function.lambda_handler"]);
     mktemp := Returns (py "/tmp/strace_wrapper_k3x.sh");
     write_wrapper := Returns ();
     chmod := Returns ();
     containers_run := Returns {| id := py "4f2a" |};
     reload := Returns (py "running");
     logs_startup := Returns [];
     logs_api_error := Returns [];
     post := Returns (200%Z, py "{'statusCode': 200}");
     logs_session := Returns [];
     exec_cat := Returns (0%Z, two_lines open_tmp_line stat_app_line);
     exec_find := Returns (0%Z, two_lines (py "/app/config.yaml") (py "/tmp/x"));
     stats := Returns (1048576%Z, Some 0%Z);
     stop := Raises (Exn NotFound (py "404 Not Found: No such container"));
     remove := Raises (Exn APIError (py "409 Conflict: removal in progress"));
     path_exists := true;
     unlink := Raises (Exn OSError (py "[Errno 13] Permission denied"));
     decode := λ output, Some output |}.

(** ** More vocabulary for the session *)

(** A computation that moves the state along [R], however it ends. *)
Definition steps {A} (R : state → state → Prop) (m : M A) : Prop :=
  ∀ s, R s (m s).2.

(** [s'] has the trace of [s] and more events, all of the kind [p]. *)
Definition adds (p : event → bool) (s s' : state) : Prop :=
  ∃ evs, trace s' = trace s ++ evs ∧ Forall (λ ev, p ev = true) evs.

(** [s'] has the wrapper script path of [s]. *)
Definition same_wrapper (s s' : state) : Prop :=
  wrapper_script_path_host s' = wrapper_script_path_host s.

(** The event is a command run in the container. *)
Definition is_exec (ev : event) : bool :=
  match ev with ExecRun _ _ => true | _ => false end.

(** The event is the creation of the temporary file. *)
Definition is_mktemp (ev : event) : bool :=
  match ev with MkTemp => true | _ => false end.

(** [s'] has the wrapper script path and the [trimmer] of [s]. *)
Definition keeps (s s' : state) : Prop :=
  wrapper_script_path_host s' = wrapper_script_path_host s ∧
  trimmer s' = trimmer s.

(** A scenario in which the engine does not have the image: the
    inspection raises [ImageNotFound]; nothing after it is reached. *)
Definition missing_image_scenario : scenario :=
  {| images_get := Raises (Exn ImageNotFound
                             (py "404 Not Found: No such image: docker-image:test"));
     mktemp := Returns (py "/tmp/strace_wrapper_k3x.sh");
     write_wrapper := Returns ();
     chmod := Returns ();
     containers_run := Returns {| id := py "4f2a" |};
     reload := Returns (py "running");
     logs_startup := Returns [];
     logs_api_error := Returns [];
     post := Returns (200%Z, py "ok");
     logs_session := Returns [];
     exec_cat := Returns (0%Z, []);
     exec_find := Returns (0%Z, []);
     stats := Returns (1048576%Z, None);
     stop := Returns ();
     remove := Returns ();
     path_exists := true;
     unlink := Returns ();
     decode := λ output, Some output |}.

(** A scenario in which the engine refuses to run the container: the
    wrapper script is on the host, [containers.run] raises [APIError]. *)
Definition refused_run_scenario : scenario :=
  {| images_get := Returns (CNone, CList [py "python"; py "app.py"]);
     mktemp := Returns (py "/tmp/strace_wrapper_k3x.sh");
     write_wrapper := Returns ();
     chmod := Returns ();
     containers_run := Raises (Exn APIError
                                 (py "500 Server Error: port is already allocated"));
     reload := Returns (py "running");
     logs_startup := Returns [];
     logs_api_error := Returns [];
     post := Returns (200%Z, py "ok");
     logs_session := Returns [];
     exec_cat := Returns (0%Z, []);
     exec_find := Returns (0%Z, []);
     stats := Returns (1048576%Z, None);
     stop := Returns ();
     remove := Returns ();
     path_exists := true;
     unlink := Returns ();
     decode := λ output, Some output |}.

(** The event is a command run in the container other than the [cat] of
    the trace log. *)
Definition is_other_exec (ev : event) : bool :=
  match ev with
  | ExecRun _ cmd => negb (bool_decide (cmd = py "cat " ++ log_path_in_container))
  | _ => false
  end.

(** * The proofs *)

(** ** The access-log parser *)

Lemma cut_at_dq_Some s a b :
  cut_at_dq s = Some (a, b) ↔ s = a ++ dq :: b ∧ (dq ∉ a).
Proof.
  revert a b. induction s as [|c s IH]; intros a b; simpl.
  - split; [done|]. intros [H _]. by destruct a.
  - destruct (N.eqb_spec c dq) as [->|Hc].
    + split.
      * intros [= <- <-]. split; [done|]. apply not_elem_of_nil.
      * intros [H Hn]. destruct a as [|x a]; simplify_eq/=; [done|].
        exfalso. apply Hn. left.
    + destruct (cut_at_dq s) as [[a' b']|] eqn:E.
      * split.
        -- intros [= <- <-]. destruct (IH a' b') as [[-> Hn] _]; [done|].
           split; [done|]. by apply not_elem_of_cons.
        -- intros [H Hn]. destruct a as [|x a]; simplify_eq/=.
           apply not_elem_of_cons in Hn as [_ Hn].
           assert (Some (a', b') = Some (a, b)) as [= -> ->]; [|done].
           apply IH. done.
      * split; [done|]. intros [H Hn].
        destruct a as [|x a]; simplify_eq/=.
        apply not_elem_of_cons in Hn as [_ Hn].
        assert (None = Some (a, b)); [|done]. apply IH. done.
Qed.

Lemma cut_at_dq_None s : cut_at_dq s = None ↔ dq ∉ s.
Proof.
  induction s as [|c s IH]; simpl.
  - split; [intros _; apply not_elem_of_nil|done].
  - destruct (N.eqb_spec c dq) as [->|Hc].
    + split; [done|]. intros H. exfalso. apply H. left.
    + rewrite not_elem_of_cons. destruct (cut_at_dq s) as [[a b]|].
      * split; [done|]. intros [_ H]. by apply IH in H.
      * split; [|done]. intros _. split; [done|]. by apply IH.
Qed.

Lemma cut_at_dq_app a s : dq ∉ a →
  cut_at_dq (a ++ s) = (λ p, (a ++ p.1, p.2)) <$> cut_at_dq s.
Proof.
  induction a as [|c a IH]; simpl; intros Hn.
  - by destruct (cut_at_dq s) as [[]|].
  - apply not_elem_of_cons in Hn as [Hc Hn].
    destruct (N.eqb_spec c dq) as [|_]; [done|].
    rewrite IH by done. by destruct (cut_at_dq s) as [[]|].
Qed.

Lemma first_quoted_app a s : dq ∉ a → first_quoted (a ++ s) = first_quoted s.
Proof.
  intros Hn. unfold first_quoted. rewrite cut_at_dq_app by done.
  by destruct (cut_at_dq s) as [[]|].
Qed.

Lemma first_quoted_Some s q :
  first_quoted s = Some q ↔
  ∃ a b, s = a ++ dq :: q ++ dq :: b ∧ (dq ∉ a) ∧ (dq ∉ q).
Proof.
  unfold first_quoted. split.
  - destruct (cut_at_dq s) as [[a r]|] eqn:E; [|done].
    destruct (cut_at_dq r) as [[q' b]|] eqn:E'; [|done].
    intros [= <-]. apply cut_at_dq_Some in E as [-> ?].
    apply cut_at_dq_Some in E' as [-> ?]. eauto.
  - intros (a & b & -> & Ha & Hq).
    assert (cut_at_dq (a ++ dq :: q ++ dq :: b) = Some (a, q ++ dq :: b)) as ->
      by by apply cut_at_dq_Some.
    assert (cut_at_dq (q ++ dq :: b) = Some (q, b)) as ->
      by by apply cut_at_dq_Some.
    done.
Qed.

(** *** The matcher on the parser's regex *)

Lemma lazy_dot_star_ext {A} (k k' : str → option A) s :
  (∀ t, k t = k' t) → lazy_dot_star s k = lazy_dot_star s k'.
Proof.
  intros Hk. induction s as [|c s IH]; simpl; rewrite Hk; [done|].
  by rewrite IH.
Qed.

Lemma strip_prefix_dq c s :
  strip_prefix [dq] (c :: s) = if c =? dq then Some s else None.
Proof. done. Qed.

(** A lazy run in front of a continuation that wants a double quote stops
    at the first double quote, and moves on to the next one only when the
    continuation fails there. *)
Lemma lazy_dot_star_quote {A} (K : str → option A) s :
  lf ∉ s →
  lazy_dot_star s
    (λ s1, match strip_prefix [dq] s1 with Some s2 => K s2 | None => None end)
  = match cut_at_dq s with
    | Some (_, r) =>
        match K r with
        | Some m => Some m
        | None =>
            lazy_dot_star r
              (λ s1, match strip_prefix [dq] s1 with
                     | Some s2 => K s2 | None => None end)
        end
    | None => None
    end.
Proof.
  induction s as [|c s IH]; intros Hlf; [done|].
  apply not_elem_of_cons in Hlf as [Hc Hlf].
  cbn [lazy_dot_star cut_at_dq]. rewrite strip_prefix_dq.
  destruct (N.eqb_spec c dq) as [->|Hq].
  - destruct (K s); [done|]. done.
  - destruct (N.eqb_spec c lf) as [|_]; [done|].
    rewrite IH by done. by destruct (cut_at_dq s) as [[a b]|].
Qed.

(** The same run when the continuation always succeeds at a double quote. *)
Lemma lazy_dot_star_capture {A} (F : str → A) s :
  lf ∉ s →
  lazy_dot_star s
    (λ s1, match strip_prefix [dq] s1 with
           | Some _ => Some (F s1) | None => None end)
  = (λ p, F (dq :: p.2)) <$> cut_at_dq s.
Proof.
  induction s as [|c s IH]; intros Hlf; [done|].
  apply not_elem_of_cons in Hlf as [Hc Hlf].
  cbn [lazy_dot_star cut_at_dq]. rewrite strip_prefix_dq.
  destruct (N.eqb_spec c dq) as [->|Hq]; [done|].
  destruct (N.eqb_spec c lf) as [|_]; [done|].
  rewrite IH by done. by destruct (cut_at_dq s) as [[a b]|].
Qed.

Lemma rmatch_quoted s caps :
  lf ∉ s →
  rmatch (Cat (Group 2 AnyLazy) (Lit [dq])) s caps (λ _ c, Some c)
  = (λ p, <[2%nat := p.1]> caps) <$> cut_at_dq s.
Proof.
  intros Hlf. cbn [rmatch].
  rewrite (lazy_dot_star_capture
    (λ s1, <[2%nat := take (length s - length s1) s]> caps)) by done.
  destruct (cut_at_dq s) as [[a b]|] eqn:E; [|done].
  apply cut_at_dq_Some in E as [-> _]. cbn. do 3 f_equal.
  rewrite length_app. cbn [length].
  replace (length a + S (length b) - S (length b))%nat with (length a) by lia.
  by rewrite take_app_length.
Qed.

Lemma rmatch_regex_tail s caps :
  lf ∉ s →
  rmatch regex_tail s caps (λ _ c, Some c)
  = (λ q, <[2%nat := q]> caps) <$> first_quoted s.
Proof.
  intros Hlf. unfold regex_tail.
  change (rmatch _ s caps _) with
    (lazy_dot_star s
       (λ s1, match strip_prefix [dq] s1 with
              | Some s2 =>
                  rmatch (Cat (Group 2 AnyLazy) (Lit [dq])) s2 caps (λ _ c, Some c)
              | None => None end)).
  rewrite lazy_dot_star_quote by done. unfold first_quoted.
  destruct (cut_at_dq s) as [[a r]|] eqn:E; [|done].
  apply cut_at_dq_Some in E as [-> _].
  assert (lf ∉ r) as Hr.
  { intros Hin. apply Hlf. apply elem_of_app. right. by right. }
  rewrite rmatch_quoted by done.
  destruct (cut_at_dq r) as [[q b]|] eqn:E; [done|]. cbn.
  apply cut_at_dq_None in E.
  rewrite lazy_dot_star_quote by done.
  apply cut_at_dq_None in E. by rewrite E.
Qed.

Lemma strip_prefix_Some l s s' : strip_prefix l s = Some s' ↔ s = l ++ s'.
Proof.
  revert s. induction l as [|p l IH]; intros s; simpl.
  - split; [by intros [= ->]|by intros ->].
  - destruct s as [|c s]; [done|].
    destruct (N.eqb_spec c p) as [->|Hne].
    + rewrite IH. split; [by intros ->|by intros [= ->]].
    + split; [done|]. by intros [= ? _].
Qed.

Lemma startswith_strip s l : startswith s l = bool_decide (is_Some (strip_prefix l s)).
Proof.
  revert s. induction l as [|p l IH]; intros s; cbn [startswith strip_prefix].
  - symmetry. by apply bool_decide_eq_true_2.
  - destruct s as [|c s].
    + symmetry. apply bool_decide_eq_false_2. by intros [? ?].
    + destruct (N.eqb_spec c p) as [->|Hne]; cbn [andb]; [apply IH|].
      symmetry. apply bool_decide_eq_false_2. by intros [? ?].
Qed.

Lemma startswith_prefix s l : startswith s l = true ↔ l `prefix_of` s.
Proof.
  rewrite startswith_strip, bool_decide_eq_true. split.
  - intros [s' H]. apply strip_prefix_Some in H. by exists s'.
  - intros [s' ->]. exists s'. by apply strip_prefix_Some.
Qed.

Lemma rmatch_alts names s caps k :
  names ≠ [] →
  rmatch (alts names) s caps k = first_alt names s (λ s', k s' caps).
Proof.
  induction names as [|l [|l2 ls] IH]; intros Hne; [done| |].
  - simpl. by destruct (strip_prefix l s); simpl; [destruct (k _ _)|].
  - change (alts (l :: l2 :: ls)) with (Alt (Lit l) (alts (l2 :: ls))).
    cbn [rmatch first_alt]. rewrite IH by done.
    by destruct (strip_prefix l s).
Qed.

(** A match of the whole regex at the front of [s]. *)
Lemma match_here_regex s :
  match_here regex s
  = first_alt syscall_names s
      (λ s', rmatch regex_tail s'
               (<[1%nat := take (length s - length s') s]> ∅)
               (λ _ c, Some c)).
Proof.
  unfold match_here, regex, file_access_syscalls. cbn [rmatch].
  by rewrite rmatch_alts.
Qed.

Lemma first_alt_quoted (C : str → captures) names s :
  (∀ name, name ∈ names → dq ∉ name) →
  lf ∉ s →
  (.!! 2%nat) <$>
    first_alt names s
      (λ s', rmatch regex_tail s' (C s') (λ _ c, Some c))
  = if existsb (startswith s) names then Some <$> first_quoted s else None.
Proof.
  intros Hdq Hlf. induction names as [|l ls IH]; [done|].
  cbn [first_alt existsb]. rewrite startswith_strip.
  destruct (strip_prefix l s) as [s'|] eqn:E.
  - rewrite bool_decide_eq_true_2 by eauto. cbn [orb mbind option_bind].
    apply strip_prefix_Some in E as ->.
    assert (lf ∉ s') by (intros ?; apply Hlf, elem_of_app; by right).
    rewrite rmatch_regex_tail by done.
    rewrite first_quoted_app by (apply Hdq; left).
    destruct (first_quoted s') as [q|] eqn:Eq;
      cbn [fmap option_fmap option_map].
    + by rewrite lookup_insert_eq.
    + rewrite IH by (intros; apply Hdq; by right).
      rewrite first_quoted_app, Eq by (apply Hdq; left).
      by destruct (existsb _ _).
  - rewrite bool_decide_eq_false_2 by (by intros [? ?]). cbn.
    apply IH. intros; apply Hdq; by right.
Qed.

Lemma syscall_names_no_dq name : name ∈ syscall_names → dq ∉ name.
Proof.
  revert name. apply Forall_forall.
  apply (bool_decide_unpack _). by vm_compute.
Qed.

Lemma match_here_group2 s :
  lf ∉ s →
  (.!! 2%nat) <$> match_here regex s
  = if syscall_here s then Some <$> first_quoted s else None.
Proof.
  intros Hlf. rewrite match_here_regex.
  by rewrite (first_alt_quoted _ _ _ syscall_names_no_dq Hlf).
Qed.

(** The search of the regex on a line reports [search_spec]. *)
Lemma search_regex line :
  lf ∉ line →
  (.!! 2%nat) <$> search regex line = Some <$> search_spec line.
Proof.
  induction line as [|c line IH]; intros Hlf; [by vm_compute|].
  cbn [search search_spec]. pose proof (match_here_group2 _ Hlf) as H.
  apply not_elem_of_cons in Hlf as [_ Hlf]. specialize (IH Hlf).
  assert ((if syscall_here (c :: line)
           then Some <$> first_quoted (c :: line) else None)
          = Some <$> (if syscall_here (c :: line)
                      then first_quoted (c :: line) else None)) as E
    by by destruct (syscall_here _).
  rewrite E in H. clear E.
  destruct (match_here regex (c :: line)) as [m|],
    (if syscall_here (c :: line) then first_quoted (c :: line) else None)
    as [q|]; simplify_eq/=; [by f_equal|done].
Qed.

(** *** Lines of [splitlines] *)

Lemma splitlines_from_no_break after_cr cur s line :
  Forall (λ c, is_linebreak c = false) cur →
  line ∈ splitlines_from after_cr cur s →
  Forall (λ c, is_linebreak c = false) line.
Proof.
  revert after_cr cur. induction s as [|c s IH]; intros after_cr cur Hcur; simpl.
  - destruct cur; [by intros ?%elem_of_nil|]. by intros ->%list_elem_of_singleton.
  - destruct (after_cr && (c =? lf)); [by apply IH|].
    destruct (is_linebreak c) eqn:Hc.
    + intros [->|Hin]%elem_of_cons; [done|].
      by apply (IH (c =? cr) []); [apply Forall_nil|].
    + apply IH. apply Forall_app. split; [done|]. by apply Forall_singleton.
Qed.

Lemma splitlines_no_lf log line : line ∈ splitlines log → lf ∉ line.
Proof.
  intros Hin Hlf.
  eapply splitlines_from_no_break in Hin; [|by apply Forall_nil].
  rewrite Forall_forall in Hin. by apply Hin in Hlf.
Qed.

(** *** The loop over the lines *)

Lemma parse_line_union acc line : parse_line acc line = line_paths line ∪ acc.
Proof.
  unfold line_paths, parse_line.
  destruct (search regex line) as [m|]; [|set_solver].
  destruct (m !! 2%nat) as [[|c q]|]; set_solver.
Qed.

Lemma parse_lines_union acc ls :
  foldl parse_line acc ls = ⋃ (line_paths <$> ls) ∪ acc.
Proof.
  revert acc. induction ls as [|l ls IH]; intros acc; simpl; [set_solver|].
  rewrite IH, parse_line_union. set_solver.
Qed.

Lemma parse_strace_file_accesses_union log :
  parse_strace_file_accesses log = ⋃ (line_paths <$> splitlines log).
Proof. unfold parse_strace_file_accesses. rewrite parse_lines_union. set_solver. Qed.

(** What one line adds, by [search_spec]. *)
Lemma line_paths_spec line :
  lf ∉ line →
  line_paths line
  = match search_spec line with
    | Some (c :: q) => {[c :: q]}
    | _ => ∅
    end.
Proof.
  intros Hlf. pose proof (search_regex line Hlf) as H.
  unfold line_paths, parse_line.
  destruct (search regex line) as [m|], (search_spec line) as [q|];
    simplify_eq/=; [|done].
  rewrite H. destruct q; set_solver.
Qed.

(** *** [search_spec] in the words of the claims *)

Lemma cut_at_dq_rest a t a' r :
  cut_at_dq (a ++ dq :: t) = Some (a', r) → dq ∈ t → dq ∈ r.
Proof.
  revert a'. induction a as [|c a IH]; intros a'; simpl.
  - by intros [= <- <-].
  - destruct (c =? dq).
    + intros [= <- <-] Ht. apply elem_of_app. right. by right.
    + destruct (cut_at_dq (a ++ dq :: t)) as [[a2 r2]|]; [|done].
      intros [= <- <-]. by apply (IH a2).
Qed.

Lemma first_quoted_is_Some s : has_quoted s ↔ is_Some (first_quoted s).
Proof.
  split.
  - intros (a & q & b & ->). unfold first_quoted.
    destruct (cut_at_dq (a ++ dq :: q ++ dq :: b)) as [[a' r]|] eqn:E.
    + assert (dq ∈ r) as Hr.
      { apply (cut_at_dq_rest _ _ _ _ E), elem_of_app. right. left. }
      destruct (cut_at_dq r) as [[q' b']|] eqn:E'; [by eexists|].
      by apply cut_at_dq_None in E'.
    + apply cut_at_dq_None in E. exfalso. apply E, elem_of_app. right. left.
  - intros [q (a & b & -> & _)%first_quoted_Some]. by exists a, q, b.
Qed.

Lemma has_quoted_app pre s : has_quoted s → has_quoted (pre ++ s).
Proof.
  intros (a & q & b & ->). exists (pre ++ a), q, b. by rewrite <- app_assoc.
Qed.

Lemma syscall_here_at s : syscall_here s = true ↔ syscall_at s 0.
Proof.
  unfold syscall_here, syscall_at. rewrite existsb_exists, drop_0. split.
  - intros (name & Hin & Hs). exists name.
    by rewrite list_elem_of_In, <- startswith_prefix.
  - intros (name & Hin & Hs). exists name.
    by rewrite <- list_elem_of_In, startswith_prefix.
Qed.

Lemma syscall_at_S c line j : syscall_at (c :: line) (S j) ↔ syscall_at line j.
Proof. done. Qed.

Lemma syscall_names_nonempty : [] ∉ syscall_names.
Proof. apply (bool_decide_unpack _). by vm_compute. Qed.

Lemma syscall_at_nil j : ¬ syscall_at [] j.
Proof.
  intros (name & Hin & Hp). rewrite drop_nil in Hp.
  apply prefix_nil_inv in Hp as ->. by apply syscall_names_nonempty.
Qed.

Lemma search_spec_first line q :
  first_quoted_after_syscall line q → search_spec line = Some q.
Proof.
  intros (i & a & b & Hi & Hleft & Hd & Ha & Hq).
  revert line Hi Hleft Hd. induction i as [|i IH]; intros line Hi Hleft Hd.
  - rewrite drop_0 in Hd. apply syscall_here_at in Hi.
    assert (first_quoted line = Some q) as Hf
      by (apply first_quoted_Some; eauto).
    destruct line; cbn [search_spec]; by rewrite Hi, Hf.
  - destruct line as [|c line]; [by apply syscall_at_nil in Hi|].
    cbn [search_spec].
    destruct (syscall_here (c :: line)) eqn:Hh.
    { apply syscall_here_at, Hleft in Hh. lia. }
    apply IH; [done| |done].
    intros j Hj. apply (syscall_at_S c) in Hj. apply Hleft in Hj. lia.
Qed.

Lemma first_quoted_after_syscall_cons c line q :
  syscall_here (c :: line) = false →
  first_quoted_after_syscall line q →
  first_quoted_after_syscall (c :: line) q.
Proof.
  intros Hh (i & a & b & Hi & Hleft & Hd & Ha & Hq).
  exists (S i), a, b. split; [done|]. split; [|done].
  intros [|j] Hj.
  - apply syscall_here_at in Hj. congruence.
  - apply syscall_at_S, Hleft in Hj. lia.
Qed.

Lemma search_spec_Some line q :
  search_spec line = Some q ↔ first_quoted_after_syscall line q.
Proof.
  split; [|apply search_spec_first].
  induction line as [|c line IH]; [by vm_compute|].
  cbn [search_spec]. destruct (syscall_here (c :: line)) eqn:Hh.
  - destruct (first_quoted (c :: line)) as [q'|] eqn:Hf.
    + intros [= ->]. apply first_quoted_Some in Hf as (a & b & Hd & Ha & Hq).
      exists 0%nat, a, b. rewrite drop_0.
      split; [by apply syscall_here_at|]. split; [intros; lia|done].
    + intros H. apply IH in H as (i & a & b & Hi & Hleft & Hd & Ha & Hq).
      exfalso. cut (is_Some (first_quoted (c :: line))).
      { rewrite Hf. by intros [? ?]. }
      apply first_quoted_is_Some.
      rewrite <- (take_drop i line), Hd.
      apply (has_quoted_app (c :: take i line)). by exists a, q, b.
  - intros H. by apply first_quoted_after_syscall_cons, IH.
Qed.

(** A line that mentions a syscall name followed by a quoted text has a
    first quoted text after a syscall name. *)
Lemma syscall_then_quoted_first line :
  syscall_then_quoted line → ∃ q, first_quoted_after_syscall line q.
Proof.
  intros (pre & name & rest & -> & Hin & Hq).
  cut (is_Some (search_spec (pre ++ name ++ rest))).
  { intros [q H]. exists q. by apply search_spec_Some. }
  induction pre as [|c pre IH].
  - assert (syscall_here (name ++ rest) = true) as Hh.
    { apply syscall_here_at. exists name. rewrite drop_0.
      split; [done|]. by exists rest. }
    assert (is_Some (first_quoted (name ++ rest))) as [q Hf].
    { by apply first_quoted_is_Some, has_quoted_app. }
    exists q. cbn [app]. destruct (name ++ rest); cbn [search_spec]; by rewrite Hh, Hf.
  - cbn [app search_spec]. by destruct (if syscall_here _ then _ else _).
Qed.

Lemma first_quoted_after_syscall_inj line q q' :
  first_quoted_after_syscall line q → first_quoted_after_syscall line q' →
  q = q'.
Proof. intros H H'. apply search_spec_Some in H, H'. congruence. Qed.

Lemma search_spec_no_syscall line :
  (∀ i, ¬ syscall_at line i) → search_spec line = None.
Proof.
  induction line as [|c line IH]; intros Hno; [by vm_compute|].
  cbn [search_spec]. destruct (syscall_here (c :: line)) eqn:Hh.
  { by apply syscall_here_at, Hno in Hh. }
  apply IH. intros i Hi. by apply (Hno (S i)).
Qed.

Lemma search_spec_no_quoted line :
  ¬ has_quoted line → search_spec line = None.
Proof.
  intros Hno. destruct (search_spec line) as [q|] eqn:E; [|done].
  apply search_spec_Some in E as (i & a & b & _ & _ & Hd & _).
  exfalso. apply Hno. rewrite <- (take_drop i line), Hd.
  apply has_quoted_app. by exists a, q, b.
Qed.

(** *** The claims about the parser *)

Lemma elem_of_splitlines_paths log line q :
  line ∈ splitlines log → q ∈ line_paths line →
  q ∈ parse_strace_file_accesses log.
Proof.
  intros Hl Hq. rewrite parse_strace_file_accesses_union.
  apply elem_of_union_list. exists (line_paths line).
  split; [|done]. apply list_elem_of_fmap. by exists line.
Qed.

(** C1, as stated, fails: on the line
    [newfstatat(3, "", {st_mode=S_IFREG}, AT_EMPTY_PATH) = 0] a recognized
    syscall name is followed by a quoted text, the first such text is the
    empty one, and it is not in the returned set. *)
Lemma parse_drops_empty_quoted :
  empty_path_line ∈ splitlines empty_path_line ∧
  syscall_then_quoted empty_path_line ∧
  first_quoted_after_syscall empty_path_line [] ∧
  ([] ∉ parse_strace_file_accesses empty_path_line).
Proof.
  split; [by vm_compute; left|].
  split.
  { exists [], (py "newfstatat"),
      (py "(3, " ++ [dq; dq] ++ py ", {st_mode=S_IFREG}, AT_EMPTY_PATH) = 0").
    split; [done|]. split; [apply (bool_decide_unpack _); by vm_compute|].
    by exists (py "(3, "), [], (py ", {st_mode=S_IFREG}, AT_EMPTY_PATH) = 0"). }
  split; [by apply search_spec_Some; vm_compute|].
  by vm_compute.
Qed.

(** C1 (amended): on every line of the trace text that mentions a
    recognized syscall name followed, anywhere later on the line, by a
    quoted text, there is exactly one first quoted text after a syscall
    name, and when it is not empty it is what the line adds and it is in
    the returned set; the line
    [openat(AT_FDCWD, "/etc/passwd", O_RDONLY) = 3] contributes exactly
    [/etc/passwd]. *)
Theorem parse_adds_first_nonempty_quoted :
  (∀ log line,
     line ∈ splitlines log → syscall_then_quoted line →
     ∃ q, first_quoted_after_syscall line q ∧
          (∀ q', first_quoted_after_syscall line q' → q' = q) ∧
          (q ≠ [] →
           line_paths line = {[q]} ∧ q ∈ parse_strace_file_accesses log)) ∧
  parse_strace_file_accesses openat_line = {[py "/etc/passwd"]}.
Proof.
  split; [|by vm_compute].
  intros log line Hin Hm.
  destruct (syscall_then_quoted_first line Hm) as [q Hq]. exists q.
  split; [done|]. split.
  { intros q' Hq'. by eapply first_quoted_after_syscall_inj. }
  intros Hne.
  assert (line_paths line = {[q]}) as Hp.
  { rewrite line_paths_spec by by eapply splitlines_no_lf.
    apply search_spec_Some in Hq as ->. by destruct q. }
  split; [done|]. eapply elem_of_splitlines_paths; [done|].
  rewrite Hp. by apply elem_of_singleton.
Qed.

Lemma parse_adds_first_nonempty_quoted_witness :
  ∃ q, first_quoted_after_syscall openat_line q ∧
       (∀ q', first_quoted_after_syscall openat_line q' → q' = q) ∧
       (q ≠ [] →
        line_paths openat_line = {[q]} ∧
        q ∈ parse_strace_file_accesses openat_line).
Proof.
  apply (proj1 parse_adds_first_nonempty_quoted openat_line openat_line).
  - vm_compute. left.
  - exists [], (py "openat"),
      (py "(AT_FDCWD, " ++ [dq] ++ py "/etc/passwd" ++ [dq]
         ++ py ", O_RDONLY) = 3").
    split; [reflexivity|]. split; [vm_compute; left|].
    exists (py "(AT_FDCWD, "), (py "/etc/passwd"), (py ", O_RDONLY) = 3").
    reflexivity.
Defined.

(** C3: a line of the trace text with a recognized syscall name but no
    quoted text, or with a quoted text but no recognized syscall name,
    leaves the set of accessed files as it was, whatever it held; the
    parse goes on with the other lines as if the line were not there. *)
Theorem parse_skips_line log line :
  line ∈ splitlines log →
  ((∃ i, syscall_at line i) ∧ ¬ has_quoted line) ∨
  (has_quoted line ∧ ∀ i, ¬ syscall_at line i) →
  (∀ accessed_files, parse_line accessed_files line = accessed_files) ∧
  (∀ before after,
     foldl parse_line ∅ (before ++ line :: after)
     = foldl parse_line ∅ (before ++ after)).
Proof.
  intros Hin Hcase.
  assert (line_paths line = ∅) as Hp.
  { rewrite line_paths_spec by by eapply splitlines_no_lf.
    destruct Hcase as [[_ Hq]|[_ Hs]].
    - by rewrite search_spec_no_quoted.
    - by rewrite search_spec_no_syscall. }
  split.
  - intros acc. rewrite parse_line_union, Hp. set_solver.
  - intros before after. rewrite !parse_lines_union, !fmap_app, fmap_cons.
    rewrite !union_list_app_L, union_list_cons, Hp. set_solver.
Qed.

Lemma parse_skips_line_witness :
  (∀ accessed_files, parse_line accessed_files fstat_line = accessed_files) ∧
  (∀ before after,
     foldl parse_line ∅ (before ++ fstat_line :: after)
     = foldl parse_line ∅ (before ++ after)).
Proof.
  apply (parse_skips_line (two_lines fstat_line write_line) fstat_line).
  - vm_compute. left.
  - left. split.
    + exists 0%nat, (py "fstat"). split; [vm_compute; do 7 right; left|].
      exists (py "(3, {st_mode=S_IFREG}) = 0"). reflexivity.
    + intros H. apply first_quoted_is_Some in H. vm_compute in H.
      destruct H as [x H]. discriminate H.
Defined.

(** C7: the parse is a function of the lines of the text, not of their
    order: two texts whose lines are a permutation of each other give the
    same set, and so does the same text parsed again; the lines of a text
    parsed a second time into the set add nothing to it. *)
Theorem parse_order_independent log1 log2 :
  splitlines log1 ≡ₚ splitlines log2 →
  parse_strace_file_accesses log1 = parse_strace_file_accesses log2 ∧
  parse_strace_file_accesses log1 = parse_strace_file_accesses log1 ∧
  foldl parse_line (parse_strace_file_accesses log1) (splitlines log1)
  = parse_strace_file_accesses log1.
Proof.
  intros Hperm. split; [|split; [done|]].
  - rewrite !parse_strace_file_accesses_union.
    apply set_eq. intros q. rewrite !elem_of_union_list.
    split; intros (X & HX & Hq); exists X; (split; [|done]);
      apply list_elem_of_fmap in HX as (l & -> & Hl);
      apply list_elem_of_fmap; exists l; (split; [done|]).
    + by rewrite <- Hperm.
    + by rewrite Hperm.
  - rewrite parse_lines_union, parse_strace_file_accesses_union. set_solver.
Qed.

Lemma parse_order_independent_witness :
  parse_strace_file_accesses (two_lines open_tmp_line stat_app_line)
  = parse_strace_file_accesses (two_lines stat_app_line open_tmp_line).
Proof.
  apply (parse_order_independent
           (two_lines open_tmp_line stat_app_line)
           (two_lines stat_app_line open_tmp_line)).
  vm_compute. apply perm_swap.
Defined.

(** C10: the empty text is never in the returned set; a line whose first
    quoted text after a syscall name is empty adds nothing. *)
Theorem parse_never_yields_empty log :
  ([] ∉ parse_strace_file_accesses log) ∧
  ∀ line,
    line ∈ splitlines log → first_quoted_after_syscall line [] →
    ∀ accessed_files, parse_line accessed_files line = accessed_files.
Proof.
  split.
  - rewrite parse_strace_file_accesses_union. intros H.
    apply elem_of_union_list in H as (X & HX & Hq).
    apply list_elem_of_fmap in HX as (l & -> & Hl).
    rewrite line_paths_spec in Hq by by eapply splitlines_no_lf.
    destruct (search_spec l) as [[|c q]|]; set_solver.
  - intros line Hin Hq acc. rewrite parse_line_union.
    rewrite line_paths_spec by by eapply splitlines_no_lf.
    apply search_spec_Some in Hq as ->. set_solver.
Qed.

Lemma parse_never_yields_empty_witness :
  parse_line {[py "/etc/passwd"]} empty_path_line = {[py "/etc/passwd"]}.
Proof.
  apply (proj2 (parse_never_yields_empty empty_path_line) empty_path_line).
  - vm_compute. left.
  - apply search_spec_Some. vm_compute. reflexivity.
Defined.

(** X3: on a line without a line feed, the search of the regex has a
    match whose group 2 is [q] exactly when [q] is the first quoted text
    after a syscall name on the line: the text between the first two
    double quotes that follow the leftmost recognized name. *)
Theorem regex_search_group2 line q :
  lf ∉ line →
  (∃ m, search regex line = Some m ∧ m !! 2%nat = Some q)
  ↔ first_quoted_after_syscall line q.
Proof.
  intros Hlf. pose proof (search_regex line Hlf) as H.
  rewrite <- search_spec_Some. split.
  - intros (m & Hm & Hq). rewrite Hm in H. cbn in H. rewrite Hq in H.
    destruct (search_spec line); by simplify_eq/=.
  - intros Hs. rewrite Hs in H.
    destruct (search regex line) as [m|]; simplify_eq/=. by exists m.
Qed.

Lemma regex_search_group2_witness :
  ∃ m, search regex openat_line = Some m ∧ m !! 2%nat = Some (py "/etc/passwd").
Proof.
  apply (regex_search_group2 openat_line (py "/etc/passwd")).
  - intros H. vm_compute in H.
    repeat (apply elem_of_cons in H as [H|H]; [discriminate H|]).
    by apply elem_of_nil in H.
  - apply search_spec_Some. vm_compute. reflexivity.
Defined.

(** ** The path classifier and the set reducer *)

Lemma is_ignorable_true filepath :
  is_ignorable filepath = true ↔
  py "/" `prefix_of` filepath ∧
  ∃ prefix, prefix ∈ COMMON_SYSTEM_DIRS ∧ prefix `prefix_of` filepath.
Proof.
  unfold is_ignorable.
  destruct (startswith filepath (py "/")) eqn:Hs; cbn [negb].
  - apply startswith_prefix in Hs. rewrite existsb_exists. split.
    + intros (prefix & Hin & Hp). split; [done|]. exists prefix.
      by rewrite list_elem_of_In, <- startswith_prefix.
    + intros (_ & prefix & Hin & Hp). exists prefix.
      by rewrite <- list_elem_of_In, startswith_prefix.
  - split; [done|]. intros [Hp _]. apply startswith_prefix in Hp. congruence.
Qed.

Lemma filter_loop_elem (l : list (list N)) (acc : gset (list N)) p :
  p ∈ foldl (λ result f, if negb (is_ignorable f) then {[f]} ∪ result else result)
        acc l
  ↔ p ∈ acc ∨ (p ∈ l ∧ is_ignorable p = false).
Proof.
  revert acc. induction l as [|f l IH]; intros acc; cbn [foldl].
  - rewrite elem_of_nil. naive_solver.
  - rewrite IH, elem_of_cons. destruct (is_ignorable f) eqn:Hf; cbn [negb].
    + split; [tauto|]. intros [?|[[->|?] Hp]]; [tauto|congruence|tauto].
    + rewrite elem_of_union, elem_of_singleton.
      split; [|tauto]. intros [[->|?]|?]; tauto.
Qed.

Lemma elem_of_filter_accessed_files (accessed_files : gset (list N)) p :
  p ∈ filter_accessed_files accessed_files
  ↔ p ∈ accessed_files ∧ is_ignorable p = false.
Proof.
  unfold filter_accessed_files.
  rewrite filter_loop_elem, elem_of_elements, elem_of_empty. naive_solver.
Qed.

(** A new object leaves every object of the store as it was. *)
Lemma alloc_fresh (s : gset (list N)) (h : gmap nat (gset (list N))) :
  h !! (Store.alloc s h).1 = None ∧
  (Store.alloc s h).2 !! (Store.alloc s h).1 = Some s ∧
  ∀ k, is_Some (h !! k) → (Store.alloc s h).2 !! k = h !! k.
Proof.
  unfold Store.alloc. cbn [fst snd].
  assert (h !! fresh (dom h) = None) as Hf.
  { apply not_elem_of_dom. apply is_fresh. }
  split; [done|]. split; [by rewrite lookup_insert_eq|].
  intros k [x Hk]. rewrite lookup_insert_ne; [done|]. congruence.
Qed.

(** C4: [is_ignorable] is false on every path that does not start with
    [/], and true exactly on the paths that start with [/] and with one
    of the prefixes of [COMMON_SYSTEM_DIRS]; [/proc/1/status] is
    ignorable, [/app/model.json] and [relative/path] are not. *)
Theorem is_ignorable_spec :
  (∀ filepath, ¬ py "/" `prefix_of` filepath → is_ignorable filepath = false) ∧
  (∀ filepath,
     is_ignorable filepath = true ↔
     py "/" `prefix_of` filepath ∧
     ∃ prefix, prefix ∈ COMMON_SYSTEM_DIRS ∧ prefix `prefix_of` filepath) ∧
  is_ignorable (py "/proc/1/status") = true ∧
  is_ignorable (py "/app/model.json") = false ∧
  is_ignorable (py "relative/path") = false.
Proof.
  split; [|split; [apply is_ignorable_true|by vm_compute]].
  intros filepath Hrel. destruct (is_ignorable filepath) eqn:E; [|done].
  apply is_ignorable_true in E as [Hp _]. by destruct Hrel.
Qed.

Lemma is_ignorable_spec_witness :
  is_ignorable (py "usr/lib/libc.so") = false.
Proof.
  apply (proj1 is_ignorable_spec (py "usr/lib/libc.so")).
  intros [k H]. vm_compute in H. discriminate H.
Defined.

(** C5: the set [filter_accessed_files] returns holds exactly the members
    of its argument that are not ignorable; the call builds it in a new
    object and leaves the argument, and every other object, as it was;
    for a trace text parsed to [{"/tmp/x", "/app/config.yaml"}] the filter
    of the parse is [{"/app/config.yaml"}]. *)
Theorem filter_accessed_files_spec :
  (∀ (accessed_files : gset (list N)) p,
     p ∈ filter_accessed_files accessed_files
     ↔ p ∈ accessed_files ∧ is_ignorable p = false) ∧
  (∀ (h : gmap nat (gset (list N))) l accessed_files,
     h !! l = Some accessed_files →
     ∃ l' h',
       Store.filter_accessed_files l h = Some (l', h') ∧
       h' !! l' = Some (filter_accessed_files accessed_files) ∧
       l' ≠ l ∧ h' !! l = Some accessed_files ∧
       ∀ k, is_Some (h !! k) → h' !! k = h !! k) ∧
  (∀ text,
     parse_strace_file_accesses text = {[py "/tmp/x"; py "/app/config.yaml"]} →
     filter_accessed_files (parse_strace_file_accesses text)
     = {[py "/app/config.yaml"]}).
Proof.
  split; [apply elem_of_filter_accessed_files|]. split.
  - intros h l S Hl. unfold Store.filter_accessed_files. rewrite Hl.
    destruct (alloc_fresh (filter_accessed_files S) h) as (Hf & Hn & Hk).
    destruct (Store.alloc (filter_accessed_files S) h) as [l' h'] eqn:E.
    cbn [fst snd] in *. exists l', h'. split; [done|]. split; [done|].
    split; [congruence|]. split; [|done]. rewrite <- Hl. by apply Hk.
  - intros text ->. apply set_eq. intros p.
    rewrite elem_of_filter_accessed_files, elem_of_union, !elem_of_singleton.
    split.
    + by intros [[->| ->] Hi]; [vm_compute in Hi|].
    + intros ->. split; [by right|by vm_compute].
Qed.

Lemma filter_accessed_files_spec_witness :
  filter_accessed_files
    (parse_strace_file_accesses (two_lines open_tmp_line stat_app_line))
  = {[py "/app/config.yaml"]}.
Proof.
  apply (proj2 (proj2 filter_accessed_files_spec)
           (two_lines open_tmp_line stat_app_line)).
  vm_compute. reflexivity.
Defined.

(** C6: [compare_file_sets] lists under [added_files] exactly the members
    of [after] that are not in [before], under [deleted_files] exactly
    the members of [before] that are not in [after], each once, and no
    path under both; the call leaves every object of the store as it was;
    on [{a,b,c}] and [{b,c,d}] it gives [d] added and [a] deleted, and on
    a set and itself nothing added and nothing deleted. *)
Theorem compare_file_sets_spec :
  (∀ before after : gset (list N),
     (∀ p, p ∈ added_files (compare_file_sets before after)
           ↔ p ∈ after ∧ p ∉ before) ∧
     (∀ p, p ∈ deleted_files (compare_file_sets before after)
           ↔ p ∈ before ∧ p ∉ after) ∧
     NoDup (added_files (compare_file_sets before after)) ∧
     NoDup (deleted_files (compare_file_sets before after)) ∧
     (∀ p, p ∈ added_files (compare_file_sets before after) →
           p ∉ deleted_files (compare_file_sets before after))) ∧
  (∀ (h : gmap nat (gset (list N))) lb la before after,
     h !! lb = Some before → h !! la = Some after →
     ∃ h', Store.compare_file_sets lb la h
           = Some (compare_file_sets before after, h') ∧
           ∀ k, is_Some (h !! k) → h' !! k = h !! k) ∧
  (∀ a b c d : list N,
     a ∉ [b; c; d] → d ∉ [a; b; c] →
     compare_file_sets {[a; b; c]} {[b; c; d]}
     = {| added_files := [d]; deleted_files := [a] |}) ∧
  (∀ S : gset (list N),
     compare_file_sets S S = {| added_files := []; deleted_files := [] |}).
Proof.
  split; [|split; [|split]].
  - intros before after. unfold compare_file_sets. cbn [added_files deleted_files].
    split; [|split; [|split; [|split]]].
    + intros p. by rewrite elem_of_elements, elem_of_difference.
    + intros p. by rewrite elem_of_elements, elem_of_difference.
    + apply NoDup_elements.
    + apply NoDup_elements.
    + intros p. rewrite !elem_of_elements, !elem_of_difference. naive_solver.
  - intros h lb la b a Hb Ha. unfold Store.compare_file_sets. rewrite Hb, Ha.
    destruct (alloc_fresh (b ∖ a) h) as (Hf1 & Hn1 & Hk1).
    destruct (Store.alloc (b ∖ a) h) as [deleted h1] eqn:E1.
    destruct (alloc_fresh (a ∖ b) h1) as (Hf2 & Hn2 & Hk2).
    destruct (Store.alloc (a ∖ b) h1) as [added h2] eqn:E2.
    cbn [fst snd] in *. rewrite Hn2, (Hk2 deleted), Hn1 by by rewrite Hn1.
    eexists. split; [done|]. intros k Hk.
    rewrite Hk2, Hk1; [done|done|]. by rewrite Hk1.
  - intros a b c d Ha Hd. unfold compare_file_sets.
    rewrite !elem_of_cons, elem_of_nil in Ha, Hd.
    assert (({[b; c; d]} : gset (list N)) ∖ {[a; b; c]} = {[d]}) as ->
      by set_solver.
    assert (({[a; b; c]} : gset (list N)) ∖ {[b; c; d]} = {[a]}) as ->
      by set_solver.
    by rewrite !elements_singleton.
  - intros S. unfold compare_file_sets.
    by rewrite difference_diag_L, elements_empty.
Qed.

Lemma compare_file_sets_spec_witness :
  compare_file_sets {[py "a"; py "b"; py "c"]} {[py "b"; py "c"; py "d"]}
  = {| added_files := [py "d"]; deleted_files := [py "a"] |}.
Proof.
  apply (proj1 (proj2 (proj2 compare_file_sets_spec))
           (py "a") (py "b") (py "c") (py "d")).
  - intros H. vm_compute in H.
    repeat (apply elem_of_cons in H as [H|H]; [discriminate H|]).
    by apply elem_of_nil in H.
  - intros H. vm_compute in H.
    repeat (apply elem_of_cons in H as [H|H]; [discriminate H|]).
    by apply elem_of_nil in H.
Defined.

(** ** The session *)

Lemma isinstance_Exception e : isinstance e Exception = true.
Proof. destruct e as [[] msg]; by vm_compute. Qed.

(** *** What a computation emits *)

Section emits.

Variable p : event → bool.

Lemma emits_ret {A} (a : A) : emits p (mret a).
Proof. intros s. exists []. by rewrite app_nil_r. Qed.

Lemma emits_bind {A B} (m : M A) (f : A → M B) :
  emits p m → (∀ a, emits p (f a)) → emits p (m ≫= f).
Proof.
  intros Hm Hf s. unfold mbind, M_bind.
  destruct (Hm s) as (evs & Hevs & Hp & Ht & Hc).
  destruct (m s) as [[a|e] s']; cbn in *.
  - destruct (Hf a s') as (evs' & Hevs' & Hp' & Ht' & Hc').
    exists (evs ++ evs'). rewrite Hevs', Hevs, app_assoc, Ht', Hc'.
    by rewrite Forall_app.
  - by exists evs.
Qed.

Lemma emits_raise {A} c msg : emits p (raise (A:=A) c msg).
Proof. intros s. exists []. by rewrite app_nil_r. Qed.

Lemma emits_reraise {A} e : emits p (reraise (A:=A) e).
Proof. intros s. exists []. by rewrite app_nil_r. Qed.

Lemma emits_call {A} ev (answer : outcome A) :
  p ev = true → emits p (call ev answer).
Proof. intros Hev s. exists [ev]. by rewrite Forall_singleton. Qed.

Lemma emits_print f args :
  p (Print f args) = true → emits p (print f args).
Proof. apply emits_call. Qed.

Lemma emits_get {A} (field : state → A) : emits p (get field).
Proof. intros s. exists []. by rewrite app_nil_r. Qed.

Lemma emits_set_wrapper_script_path_host v :
  emits p (set_wrapper_script_path_host v).
Proof. intros s. exists []. by rewrite app_nil_r. Qed.

Lemma emits_set_local_container v : emits p (set_local_container v).
Proof. intros s. exists []. by rewrite app_nil_r. Qed.

Lemma emits_handler_for {A} (clauses : list (exc_class * (exn → M A))) e h :
  Forall (λ ch, ∀ e, emits p (ch.2 e)) clauses →
  handler_for clauses e = Some h → emits p h.
Proof.
  induction 1 as [|[c h'] clauses Hh _ IH]; cbn; [done|].
  destruct (isinstance e c); [|done]. intros [= <-]. apply Hh.
Qed.

Lemma emits_try_except {A} (body : M A) clauses :
  emits p body → Forall (λ ch, ∀ e, emits p (ch.2 e)) clauses →
  emits p (try_except body clauses).
Proof.
  intros Hb Hc s. unfold try_except.
  destruct (Hb s) as (evs & Hevs & Hp & Ht & Hk).
  destruct (body s) as [[a|e] s']; cbn in *.
  - by exists evs.
  - destruct (handler_for clauses e) as [h|] eqn:Hh; [|by exists evs].
    destruct (emits_handler_for _ _ _ Hc Hh s')
      as (evs' & Hevs' & Hp' & Ht' & Hk').
    exists (evs ++ evs'). rewrite Hevs', Hevs, app_assoc, Ht', Hk'.
    by rewrite Forall_app.
Qed.

Lemma emits_try_except_all {A} (body h : M A) :
  emits p body → emits p h → emits p (try_except_all body h).
Proof.
  intros Hb Hh s. unfold try_except_all.
  destruct (Hb s) as (evs & Hevs & Hp & Ht & Hk).
  destruct (body s) as [[a|e] s']; cbn in *.
  - by exists evs.
  - destruct (Hh s') as (evs' & Hevs' & Hp' & Ht' & Hk').
    exists (evs ++ evs'). rewrite Hevs', Hevs, app_assoc, Ht', Hk'.
    by rewrite Forall_app.
Qed.

Lemma emits_try_finally {A} (body : M A) final :
  emits p body → emits p final → emits p (try_finally body final).
Proof.
  intros Hb Hf s. unfold try_finally.
  destruct (Hb s) as (evs & Hevs & Hp & Ht & Hk).
  destruct (body s) as [r s']; cbn in *.
  destruct (Hf s') as (evs' & Hevs' & Hp' & Ht' & Hk'). exists (evs ++ evs').
  destruct (final s') as [[u|e] s'']; cbn in *;
    by rewrite Hevs', Hevs, app_assoc, Ht', Hk', Forall_app.
Qed.

Lemma emits_decode_bytes E output : emits p (decode_bytes E output).
Proof.
  unfold decode_bytes. destruct (decode E output);
    [apply emits_ret|apply emits_raise].
Qed.

End emits.

Create HintDb emits discriminated.

#[local] Hint Resolve emits_ret emits_raise emits_reraise emits_get
  emits_set_wrapper_script_path_host emits_set_local_container
  emits_decode_bytes : emits.
#[local] Hint Extern 1 (emits _ (call _ _)) =>
  apply emits_call; reflexivity : emits.
#[local] Hint Extern 1 (emits _ (print _ _)) =>
  apply emits_print; reflexivity : emits.

(** Splits a computation along its combinators. *)
Ltac emits_step :=
  lazymatch goal with
  | |- emits _ (_ ≫= _) => apply emits_bind; [|intros ?]
  | |- emits _ (try_except _ _) =>
      apply emits_try_except;
      [|repeat apply Forall_cons_2; [..|apply Forall_nil_2];
        intros ?; cbn [snd]]
  | |- emits _ (try_except_all _ _) => apply emits_try_except_all
  | |- emits _ (try_finally _ _) => apply emits_try_finally
  | |- emits _ (match ?x with _ => _ end) => destruct x
  | |- emits _ (if ?x then _ else _) => destruct x
  | |- emits _ (let '(_, _) := ?x in _) => destruct x
  | |- emits _ _ => solve [auto with emits]
  end.

Ltac solve_emits := repeat emits_step.

(** *** Running a computation step by step *)

Lemma run_bind_call {A B} ev (a : A) (f : A → M B) s :
  (call ev (Returns a) ≫= f) s = f a (log ev s).
Proof. done. Qed.

Lemma run_bind_call_raises {A B} ev e (f : A → M B) s :
  (call ev (Raises e) ≫= f) s = (Raises e, log ev s).
Proof. done. Qed.

Lemma run_bind_print {B} fs args (f : unit → M B) s :
  (print fs args ≫= f) s = f () (log (Print fs args) s).
Proof. done. Qed.

Lemma run_bind_ret {A B} (a : A) (f : A → M B) s : (mret a ≫= f) s = f a s.
Proof. done. Qed.

Lemma run_bind_raise {A B} c msg (f : A → M B) s :
  (raise c msg ≫= f) s = (Raises (Exn c msg), s).
Proof. done. Qed.

Lemma run_bind_get {A B} (field : state → A) (f : A → M B) s :
  (get field ≫= f) s = f (field s) s.
Proof. done. Qed.

Lemma run_bind_set_wrapper_script_path_host {B} v (f : unit → M B) s :
  (set_wrapper_script_path_host v ≫= f) s
  = f () (with_wrapper_script_path_host v s).
Proof. done. Qed.

Lemma run_bind_set_local_container {B} v (f : unit → M B) s :
  (set_local_container v ≫= f) s = f () (with_local_container v s).
Proof. done. Qed.

Lemma run_bind_set_trimmer {B} v (f : unit → M B) s :
  (set_trimmer v ≫= f) s = f () (with_trimmer v s).
Proof. done. Qed.

Lemma run_bind_set_container {B} v (f : unit → M B) s :
  (set_container v ≫= f) s = f () (with_container v s).
Proof. done. Qed.

Lemma run_bind {A B} (m : M A) (f : A → M B) s :
  (m ≫= f) s
  = match m s with
    | (Returns a, s') => f a s'
    | (Raises e, s') => (Raises e, s')
    end.
Proof. done. Qed.

Lemma run_bind_returns {A B} (m : M A) (f : A → M B) s a s' :
  m s = (Returns a, s') → (m ≫= f) s = f a s'.
Proof. intros H. unfold mbind, M_bind. by rewrite H. Qed.

Lemma run_bind_raises {A B} (m : M A) (f : A → M B) s e s' :
  m s = (Raises e, s') → (m ≫= f) s = (Raises e, s').
Proof. intros H. unfold mbind, M_bind. by rewrite H. Qed.

Lemma run_try_except_returns {A} (body : M A) clauses s a s' :
  body s = (Returns a, s') → try_except body clauses s = (Returns a, s').
Proof. intros H. unfold try_except. by rewrite H. Qed.

Lemma run_try_except_raises {A} (body : M A) clauses s e s' h :
  body s = (Raises e, s') → handler_for clauses e = Some h →
  try_except body clauses s = h s'.
Proof. intros H Hh. unfold try_except. by rewrite H, Hh. Qed.

Lemma run_ret {A} (a : A) s : (mret a : M A) s = (Returns a, s).
Proof. done. Qed.

Lemma run_raise {A} c msg s : raise (A:=A) c msg s = (Raises (Exn c msg), s).
Proof. done. Qed.

Lemma run_print fs args s : print fs args s = (Returns (), log (Print fs args) s).
Proof. done. Qed.

Lemma run_call {A} ev (answer : outcome A) s : call ev answer s = (answer, log ev s).
Proof. done. Qed.

Ltac run1 :=
  first
    [ rewrite run_bind_print
    | rewrite run_bind_call
    | rewrite run_bind_call_raises
    | rewrite run_bind_ret
    | rewrite run_bind_raise
    | rewrite run_bind_get
    | rewrite run_bind_set_wrapper_script_path_host
    | rewrite run_bind_set_local_container
    | rewrite run_bind_set_trimmer
    | rewrite run_bind_set_container
    | rewrite run_ret
    | rewrite run_raise
    | rewrite run_print
    | rewrite run_call ];
  cbv beta iota.

Ltac run := repeat run1.

Lemma get_image_config_returns E image x s :
  images_get E = Returns x →
  _get_image_config E image s = (Returns x, log (ImagesGet image) s).
Proof. intros H. unfold _get_image_config, try_except, call. by rewrite H. Qed.

Lemma run_try_except_ext {A} (body body' : M A) clauses s s' :
  body s = body' s' → try_except body clauses s = try_except body' clauses s'.
Proof. intros H. unfold try_except. by rewrite H. Qed.

Section methods.

Variable p : event → bool.
Variable E : scenario.

(** Every call of the methods but [Stop] and [Remove] is of the kind. *)
Hypothesis p_call : ∀ ev, is_teardown ev = false → p ev = true.

#[local] Hint Extern 1 (emits _ (call _ _)) =>
  apply emits_call; apply p_call; reflexivity : emits.
#[local] Hint Extern 1 (emits _ (print _ _)) =>
  apply emits_print; apply p_call; reflexivity : emits.

Lemma emits_get_image_config image : emits p (_get_image_config E image).
Proof. unfold _get_image_config. solve_emits. Qed.

Lemma emits_check_running c : emits p (check_running E c).
Proof. unfold check_running. solve_emits. Qed.

Lemma emits_after_run :
  emits p match containers_run E with
          | Returns c => check_running E c
          | Raises e => reraise e
          end.
Proof.
  destruct (containers_run E); [apply emits_check_running|auto with emits].
Qed.

Lemma emits_run_and_check image command path :
  emits p (run_and_check E image command path).
Proof.
  unfold run_and_check.
  apply emits_bind; [auto with emits|]. intros c. apply emits_check_running.
Qed.

Lemma emits_init_container_body image : emits p (init_container_body E image).
Proof.
  unfold init_container_body.
  apply emits_bind; [apply emits_get_image_config|]. intros [e c].
  do 2 (apply emits_bind; [auto with emits|intros ?]).
  cbv zeta. destruct (command_to_wrap e c); [auto with emits|].
  do 6 (apply emits_bind; [auto with emits|intros ?]).
  apply emits_run_and_check.
Qed.

Lemma emits_init_container_clauses image :
  Forall (λ ch, ∀ e, emits p (ch.2 e)) (init_container_clauses E image).
Proof.
  unfold init_container_clauses.
  repeat apply Forall_cons_2; [..|apply Forall_nil_2]; intros ?; cbn [snd];
    solve_emits.
Qed.

Lemma emits_init_container image : emits p (init_container E image).
Proof.
  unfold init_container.
  apply emits_bind; [auto with emits|]. intros _.
  apply emits_try_except;
    [apply emits_init_container_body|apply emits_init_container_clauses].
Qed.

Lemma emits_trigger_lambda_in_container :
  emits p (trigger_lambda_in_container E).
Proof. unfold trigger_lambda_in_container. solve_emits. Qed.

Lemma emits_retrieve_strace_log c log_path :
  emits p (retrieve_strace_log E c log_path).
Proof. unfold retrieve_strace_log. solve_emits. Qed.

Lemma emits_list_container_files c path :
  emits p (list_container_files E c path).
Proof. unfold list_container_files. solve_emits. Qed.

Lemma emits_get_memory_usage container_id :
  emits p (get_memory_usage E container_id).
Proof. unfold get_memory_usage. solve_emits. Qed.

Lemma emits_print_each l : emits p (print_each l).
Proof. induction l; cbn [print_each]; solve_emits. Qed.

Lemma emits_analysis c : emits p (analysis E c).
Proof.
  unfold analysis.
  apply emits_bind; [auto with emits|]. intros _.
  apply emits_bind; [apply emits_trigger_lambda_in_container|].
  intros [status output].
  do 2 (apply emits_bind; [auto with emits|intros _]).
  apply emits_bind.
  - destruct (bool_decide (status ≠ 200%Z)); [solve_emits|].
    apply emits_bind; [auto with emits|]. intros _.
    apply emits_bind; [apply emits_retrieve_strace_log|]. intros [|ch log].
    + auto with emits.
    + do 3 (apply emits_bind; [auto with emits|intros _]).
      apply emits_bind; [apply emits_print_each|]. intros _. auto with emits.
  - intros _. apply emits_bind; [auto with emits|]. intros _.
    apply emits_bind; [apply emits_get_memory_usage|]. intros m.
    auto with emits.
Qed.

(** The deletion of the wrapper script asks for no stop and no remove. *)
Lemma emits_remove_wrapper_script : emits p (remove_wrapper_script E).
Proof. unfold remove_wrapper_script. solve_emits. Qed.

(** Without a container, [cleanup] asks for no stop and no remove. *)
Lemma emits_cleanup_None : emits p (cleanup E None).
Proof.
  unfold cleanup.
  apply emits_bind; [auto with emits|]. intros _.
  apply emits_remove_wrapper_script.
Qed.

End methods.

(** The run is asked for whatever it answers. *)
Lemma run_and_check_logs E image command path s :
  run_and_check E image command path s
  = match containers_run E with
    | Returns c => check_running E c
    | Raises e => reraise e
    end (log (ContainersRun image (py "/wrapper.sh") command path) s).
Proof. unfold run_and_check. by destruct (containers_run E). Qed.

(** *** Teardown *)

(** Decides the [isinstance] tests of an exception of a known class. *)
Ltac eval_isinstance :=
  repeat match goal with
    | |- context [isinstance (Exn ?k ?m) ?c] =>
        let b := eval vm_compute in (bool_decide (c ∈ mro k)) in
        change (isinstance (Exn k m) c) with b
    end.

Lemma trace_logs evs s : trace (logs evs s) = trace s ++ evs.
Proof.
  revert s. induction evs as [|ev evs IH]; intros s; cbn [logs foldl].
  - by rewrite app_nil_r.
  - change (trace (logs evs (log ev s)) = trace s ++ ev :: evs).
    rewrite IH. cbn [trace log]. by rewrite <- app_assoc.
Qed.

Lemma frame_logs evs s :
  wrapper_script_path_host (logs evs s) = wrapper_script_path_host s ∧
  local_container (logs evs s) = local_container s ∧
  trimmer (logs evs s) = trimmer s ∧ container (logs evs s) = container s.
Proof.
  revert s. induction evs as [|ev evs IH]; intros s; [done|].
  change (logs (ev :: evs) s) with (logs evs (log ev s)).
  destruct (IH (log ev s)) as (-> & -> & -> & ->). done.
Qed.

Lemma logs_app evs evs' s : logs (evs ++ evs') s = logs evs' (logs evs s).
Proof. apply foldl_app. Qed.

(** [stop_container] asks for the stop once, prints, and returns, whatever
    the stop answers. *)
Lemma stop_container_runs E c s :
  ∃ evs, stop_container E c s = (Returns (), logs evs s) ∧ calls evs = [Stop c].
Proof.
  unfold stop_container, stop_container_clauses, try_except.
  destruct (stop E) as [[]|[k msg]]; run.
  - by eexists [_; _; _].
  - destruct k; cbn [handler_for]; eval_isinstance; cbv beta iota; run;
      by eexists [_; _; _].
Qed.

Lemma remove_container_runs E c s :
  ∃ evs,
    remove_container E c s = (Returns (), logs evs s) ∧ calls evs = [Remove c].
Proof.
  unfold remove_container, remove_container_clauses, try_except.
  destruct (remove E) as [[]|[k msg]]; run.
  - by eexists [_; _; _].
  - destruct k; cbn [handler_for]; eval_isinstance; cbv beta iota; run;
      by eexists [_; _; _].
Qed.

Lemma calls_app evs evs' : calls (evs ++ evs') = calls evs ++ calls evs'.
Proof. apply List.filter_app. Qed.

(** The deletion of the wrapper script at the end of [cleanup]. *)
Lemma remove_wrapper_script_runs E (ch : N) rest s :
  wrapper_script_path_host s = Some (ch :: rest) →
  raises_only OSError (unlink E) →
  ∃ evs,
    remove_wrapper_script E s
    = (Returns (),
       if path_exists E then with_wrapper_script_path_host None (logs evs s)
       else logs evs s) ∧
    calls evs
    = PathExists (ch :: rest)
      :: (if path_exists E then [Unlink (ch :: rest)] else []).
Proof.
  intros Hpath Hos. unfold remove_wrapper_script. run. rewrite Hpath.
  cbv beta iota zeta. run. destruct (path_exists E); cbv beta iota.
  - rewrite run_bind. unfold try_except at 1.
    destruct (unlink E) as [[]|e]; run.
    + by eexists [_; _; _].
    + cbn [handler_for]. cbn in Hos. rewrite Hos. run. by eexists [_; _; _].
  - run. by eexists [_].
Qed.

(** With a container, [cleanup] first stops it, then removes it. *)
Lemma cleanup_Some E c s :
  ∃ evs,
    cleanup E (Some c) s = remove_wrapper_script E (logs evs s) ∧
    calls evs = [Stop c; Remove c].
Proof.
  unfold cleanup.
  destruct (stop_container_runs E c s) as (evs1 & H1 & C1).
  destruct (remove_container_runs E c (logs evs1 s)) as (evs2 & H2 & C2).
  exists (evs1 ++ evs2). rewrite calls_app, C1, C2. split; [|done].
  erewrite run_bind_returns; [by rewrite logs_app|].
  erewrite run_bind_returns; [|exact H1]. exact H2.
Qed.

Lemma snd_try_finally {A} (body : M A) final s :
  (try_finally body final s).2 = (final (body s).2).2.
Proof.
  unfold try_finally. destruct (body s) as [r s']. cbn [snd].
  by destruct (final s') as [[u|e] s''].
Qed.

(** Every exception of the script's [try] block meets a clause, and the
    clause prints. *)
Lemma script_clauses_print e :
  ∃ fstring args, handler_for script_clauses e = Some (print fstring args).
Proof.
  destruct e as [k msg]. unfold script_clauses.
  destruct k; cbn [handler_for]; eval_isinstance; cbv beta iota; eauto.
Qed.

(** *** The script *)

(** What has happened when the script ends is what has happened when its
    [finally] block ends, entered from where the [try] statement ended. *)
Lemma script_trace E :
  (script E initial).2
  = (script_finally E
       (try_except (script_body E) script_clauses
          (with_trimmer false (with_container None initial))).2).2.
Proof. unfold script. run. apply snd_try_finally. Qed.

Lemma not_teardown_call ev :
  is_teardown ev = false → negb (is_teardown ev) = true.
Proof. by intros ->. Qed.

Lemma Forall_not_teardown evs :
  Forall (λ ev, negb (is_teardown ev) = true) evs →
  Forall (λ ev, is_teardown ev = false) evs.
Proof.
  intros H. eapply Forall_impl; [exact H|].
  intros ev Hev. cbv beta in Hev. by destruct (is_teardown ev).
Qed.

(** The [try] statement of the script when [init_container] raises: the
    exception is printed and the script goes on to its [finally]. *)
Lemma script_try_init_raises E e s1 :
  init_container E script_image script_start = (Raises e, s1) →
  ∃ fstring args,
    try_except (script_body E) script_clauses
      (with_trimmer false (with_container None initial))
    = (Returns (), log (Print fstring args) s1).
Proof.
  intros Hinit. destruct (script_clauses_print e) as (fstring & args & Hh).
  exists fstring, args.
  erewrite run_try_except_raises; [|unfold script_body; run|exact Hh].
  - done.
  - fold script_start. by rewrite (run_bind_raises _ _ _ _ _ Hinit).
Qed.

(** The [try] statement of the script when [init_container] returns [c]:
    it ends, however the analysis goes, with [c] in [container] and
    without a stop or a remove so far. *)
Lemma script_try_init_returns E c s1 :
  init_container E script_image script_start = (Returns c, s1) →
  ∃ r s2 evs,
    try_except (script_body E) script_clauses
      (with_trimmer false (with_container None initial)) = (r, s2) ∧
    trace s2 = trace s1 ++ evs ∧
    Forall (λ ev, negb (is_teardown ev) = true) evs ∧
    trimmer s2 = trimmer s1 ∧ container s2 = Some c.
Proof.
  intros Hinit.
  assert (script_body E (with_trimmer false (with_container None initial))
          = analysis E c (with_container (Some c) s1)) as Hbody.
  { unfold script_body. run. fold script_start.
    rewrite (run_bind_returns _ _ _ _ _ Hinit). by run. }
  destruct (emits_analysis _ E not_teardown_call c (with_container (Some c) s1))
    as (evs & Htr & Hp & Ht & Hc).
  unfold try_except. rewrite Hbody.
  destruct (analysis E c (with_container (Some c) s1)) as [[u|e] s2];
    cbn [fst snd] in *.
  - by exists (Returns u), s2, evs.
  - destruct (script_clauses_print e) as (fstring & args & ->). run.
    exists (Returns ()), (log (Print fstring args) s2),
      (evs ++ [Print fstring args]).
    split; [done|]. cbn [trace log trimmer container].
    rewrite Htr, app_assoc, Forall_app, Forall_singleton. done.
Qed.

(** *** The claims about the session *)

Lemma command_to_wrap_spec e c :
  command_to_wrap e c = spec_sequence e ++ spec_sequence c.
Proof. by destruct e as [|[|]|[|]], c as [|[|]|[|]]; cbn; rewrite ?app_nil_r. Qed.

Lemma init_container_body_no_command E image e c s :
  images_get E = Returns (e, c) → command_to_wrap e c = [] →
  init_container_body E image s
  = (Raises (Exn RuntimeError
       (py "Could not determine the command to wrap from image '" ++ image
        ++ py "'. Does it have an ENTRYPOINT or CMD?")),
     log (Print "Image Original Cmd: {}" [ACmd c])
       (log (Print "Image Original Entrypoint: {}" [ACmd e])
          (log (ImagesGet image) s))).
Proof.
  intros Himg Hnil. unfold init_container_body.
  rewrite (run_bind_returns _ _ _ _ _ (get_image_config_returns _ _ _ _ Himg)).
  cbv beta iota. run. by rewrite Hnil.
Qed.

Lemma init_container_body_command E image e c path s :
  images_get E = Returns (e, c) → command_to_wrap e c ≠ [] →
  mktemp E = Returns path → write_wrapper E = Returns () →
  chmod E = Returns () →
  init_container_body E image s
  = run_and_check E image (command_to_wrap e c) path
      (log (Print "Created temporary wrapper script: {}" [AStr path])
         (log (Chmod path)
            (log (WriteWrapper path)
               (with_wrapper_script_path_host (Some path)
                  (log MkTemp
                     (log (Print "Command sequence being wrapped: {}"
                             [AList (command_to_wrap e c)])
                        (log (Print "Image Original Cmd: {}" [ACmd c])
                           (log (Print "Image Original Entrypoint: {}" [ACmd e])
                              (log (ImagesGet image) s))))))))).
Proof.
  intros Himg Hcmd Htmp Hwr Hch. unfold init_container_body.
  rewrite (run_bind_returns _ _ _ _ _ (get_image_config_returns _ _ _ _ Himg)).
  cbv beta iota. run. destruct (command_to_wrap e c) as [|x l]; [done|].
  rewrite Htmp, Hwr, Hch. by run.
Qed.

(** C2: whatever an image declares as entrypoint and as command, each
    absent, a single string or a sequence of strings, [init_container]
    wraps the elements of the entrypoint followed by those of the command,
    in that order, and, once the wrapper script is on the host, runs the
    container with them as its command; when there is no element at all
    it raises, right after the inspection, the [RuntimeError] of a command
    that cannot be determined (the spec's ConfigurationError), and runs no
    container. *)
Theorem init_container_command E image original_entrypoint original_cmd s :
  images_get E = Returns (original_entrypoint, original_cmd) →
  command_to_wrap original_entrypoint original_cmd
  = spec_sequence original_entrypoint ++ spec_sequence original_cmd ∧
  (spec_sequence original_entrypoint ++ spec_sequence original_cmd = [] →
   (init_container E image s).1
   = Raises (Exn RuntimeError
       (py "An unexpected error occurred during container initialization: "
        ++ py "Could not determine the command to wrap from image '" ++ image
        ++ py "'. Does it have an ENTRYPOINT or CMD?")) ∧
   trace (init_container E image s).2
   = trace s ++
     [ImagesGet image;
      Print "Image Original Entrypoint: {}" [ACmd original_entrypoint];
      Print "Image Original Cmd: {}" [ACmd original_cmd]]) ∧
  (spec_sequence original_entrypoint ++ spec_sequence original_cmd ≠ [] →
   ∀ path,
     mktemp E = Returns path → write_wrapper E = Returns () →
     chmod E = Returns () →
     ∃ evs,
       trace (init_container E image s).2
       = trace s ++
         [ImagesGet image;
          Print "Image Original Entrypoint: {}" [ACmd original_entrypoint];
          Print "Image Original Cmd: {}" [ACmd original_cmd];
          Print "Command sequence being wrapped: {}"
            [AList (spec_sequence original_entrypoint
                      ++ spec_sequence original_cmd)];
          MkTemp; WriteWrapper path; Chmod path;
          Print "Created temporary wrapper script: {}" [AStr path];
          ContainersRun image (py "/wrapper.sh")
            (spec_sequence original_entrypoint ++ spec_sequence original_cmd)
            path] ++ evs).
Proof.
  intros Himg. rewrite <- command_to_wrap_spec. split; [done|]. split.
  - intros Hnil. unfold init_container. run.
    erewrite run_try_except_raises;
      [|by apply init_container_body_no_command|by vm_compute].
    split; [done|]. cbn [snd trace log with_local_container].
    by rewrite <- !app_assoc.
  - intros Hcmd path Htmp Hwr Hch. unfold init_container. run.
    erewrite run_try_except_ext;
      [|by rewrite (init_container_body_command _ _ _ _ path _ Himg),
           run_and_check_logs].
    match goal with
    | |- context [try_except ?b ?cl ?s1] =>
        destruct (emits_try_except (λ _, true) b cl
                    (emits_after_run _ E (λ _ _, eq_refl))
                    (emits_init_container_clauses _ E (λ _ _, eq_refl) image)
                    s1) as (evs & Hevs & _)
    end.
    exists evs. rewrite Hevs. cbn [trace log with_local_container
      with_wrapper_script_path_host]. by rewrite <- !app_assoc.
Qed.

Lemma init_container_command_witness :
  command_to_wrap CNone (CList [py "python"; py "app.py"])
  = spec_sequence CNone ++ spec_sequence (CList [py "python"; py "app.py"]).
Proof.
  exact (proj1 (init_container_command exited_scenario script_image
                  CNone (CList [py "python"; py "app.py"]) initial eq_refl)).
Defined.

Lemma retrieve_strace_log_failed E c log_path s :
  exec_failed (exec_cat E) →
  (retrieve_strace_log E c log_path s).1 = Returns [] ∧
  ∃ fstring args evs,
    trace (retrieve_strace_log E c log_path s).2
    = trace s ++ ExecRun c (py "cat " ++ log_path) :: evs ∧
    Print fstring args ∈ evs.
Proof.
  unfold exec_failed, retrieve_strace_log, try_except.
  destruct (exec_cat E) as [[exit_code output]|e]; intros Hfail.
  - run. rewrite bool_decide_eq_false_2 by done. run.
    unfold decode_bytes. destruct (decode E output) as [text|]; run.
    + split; [done|]. cbn [snd trace log]. rewrite <- !app_assoc.
      do 3 eexists. split; [reflexivity|]. left.
    + cbn [handler_for]. rewrite isinstance_Exception. run.
      split; [done|]. cbn [snd trace log]. rewrite <- !app_assoc.
      do 3 eexists. split; [reflexivity|]. left.
  - run. cbn [handler_for]. rewrite isinstance_Exception. run.
    split; [done|]. cbn [snd trace log]. rewrite <- !app_assoc.
    do 3 eexists. split; [reflexivity|]. left.
Qed.

Lemma list_container_files_failed E c path s :
  exec_failed (exec_find E) →
  (list_container_files E c path s).1 = Returns ∅ ∧
  ∃ fstring args evs,
    trace (list_container_files E c path s).2
    = trace s ++ ExecRun c (find_command path) :: evs ∧
    Print fstring args ∈ evs.
Proof.
  unfold exec_failed, list_container_files, try_except.
  destruct (exec_find E) as [[exit_code output]|e]; intros Hfail.
  - run. rewrite bool_decide_eq_false_2 by done. run.
    unfold decode_bytes. destruct (decode E output) as [text|]; run.
    + split; [done|]. cbn [snd trace log]. rewrite <- !app_assoc.
      do 3 eexists. split; [reflexivity|]. left.
    + cbn [handler_for]. rewrite isinstance_Exception. run.
      split; [done|]. cbn [snd trace log]. rewrite <- !app_assoc.
      do 3 eexists. split; [reflexivity|]. left.
  - run. cbn [handler_for]. rewrite isinstance_Exception. run.
    split; [done|]. cbn [snd trace log]. rewrite <- !app_assoc.
    do 3 eexists. split; [reflexivity|]. left.
Qed.

(** C8: when the [cat] of the trace log in the container raises or exits
    with a code other than zero, [retrieve_strace_log] returns the empty
    text and does not raise; when the [find] does, [list_container_files]
    returns the empty set and does not raise; each has asked the
    container once and has printed a diagnostic. *)
Theorem retrieval_is_not_fatal E c s :
  (∀ log_path,
     exec_failed (exec_cat E) →
     (retrieve_strace_log E c log_path s).1 = Returns [] ∧
     ∃ fstring args evs,
       trace (retrieve_strace_log E c log_path s).2
       = trace s ++ ExecRun c (py "cat " ++ log_path) :: evs ∧
       Print fstring args ∈ evs) ∧
  (∀ path,
     exec_failed (exec_find E) →
     (list_container_files E c path s).1 = Returns ∅ ∧
     ∃ fstring args evs,
       trace (list_container_files E c path s).2
       = trace s ++ ExecRun c (find_command path) :: evs ∧
       Print fstring args ∈ evs).
Proof.
  split.
  - intros log_path. apply retrieve_strace_log_failed.
  - intros path. apply list_container_files_failed.
Qed.

Lemma retrieval_is_not_fatal_witness :
  (retrieve_strace_log exited_scenario {| id := py "4f2a" |}
     log_path_in_container initial).1 = Returns [] ∧
  (list_container_files exited_scenario {| id := py "4f2a" |}
     (py "/") initial).1 = Returns ∅.
Proof.
  split.
  - apply (proj1 (retrieval_is_not_fatal exited_scenario
                    {| id := py "4f2a" |} initial) log_path_in_container).
    vm_compute. discriminate.
  - apply (proj2 (retrieval_is_not_fatal exited_scenario
                    {| id := py "4f2a" |} initial) (py "/")).
    vm_compute. exact I.
Defined.

(** C9, on the code: the script run against [exited_scenario].  The
    container is run, its status after the wait is [exited],
    [init_container] raises, the variable [container] of the script is
    still [None] in the [finally] block, and [cleanup] deletes the wrapper
    script without a stop or a remove of the container that was run. *)
Theorem script_leaves_exited_container :
  (script exited_scenario initial).1 = Returns () ∧
  container (script exited_scenario initial).2 = None ∧
  calls (trace (script exited_scenario initial).2)
  = [ImagesGet (py "docker-image:test");
     MkTemp;
     WriteWrapper (py "/tmp/strace_wrapper_k3x.sh");
     Chmod (py "/tmp/strace_wrapper_k3x.sh");
     ContainersRun (py "docker-image:test") (py "/wrapper.sh")
       [py "python"; py "app.py"] (py "/tmp/strace_wrapper_k3x.sh");
     Sleep 5;
     Reload {| id := py "4f2a" |};
     Logs {| id := py "4f2a" |};
     PathExists (py "/tmp/strace_wrapper_k3x.sh");
     Unlink (py "/tmp/strace_wrapper_k3x.sh")].
Proof. by vm_compute. Qed.

(** *** Teardown, beyond C9 *)

(** X1: called with a container and with the wrapper script on the host,
    [cleanup] asks for the stop, then for the remove, then for the
    deletion of the wrapper script when it exists, whatever the stop, the
    remove and the deletion answer, and it returns; this is the part of
    C9 the code keeps. *)
Theorem cleanup_attempts_every_step E c (ch : N) rest s :
  wrapper_script_path_host s = Some (ch :: rest) →
  raises_only OSError (unlink E) →
  ∃ evs,
    (cleanup E (Some c) s).1 = Returns () ∧
    trace (cleanup E (Some c) s).2 = trace s ++ evs ∧
    calls evs
    = [Stop c; Remove c; PathExists (ch :: rest)]
      ++ (if path_exists E then [Unlink (ch :: rest)] else []).
Proof.
  intros Hpath Hos.
  destruct (cleanup_Some E c s) as (evsA & -> & HA).
  destruct (frame_logs evsA s) as (Hw & _).
  rewrite <- Hw in Hpath.
  destruct (remove_wrapper_script_runs E ch rest _ Hpath Hos)
    as (evsB & -> & HB).
  exists (evsA ++ evsB). split; [done|]. rewrite calls_app, HA, HB.
  split; [|done]. cbn [snd].
  destruct (path_exists E); cbn [trace with_wrapper_script_path_host];
    by rewrite !trace_logs, app_assoc.
Qed.

Lemma cleanup_attempts_every_step_witness :
  ∃ evs,
    (cleanup running_scenario (Some {| id := py "4f2a" |})
       (with_wrapper_script_path_host (Some (py "/tmp/w.sh")) initial)).1
    = Returns () ∧
    trace (cleanup running_scenario (Some {| id := py "4f2a" |})
             (with_wrapper_script_path_host (Some (py "/tmp/w.sh")) initial)).2
    = trace (with_wrapper_script_path_host (Some (py "/tmp/w.sh")) initial)
      ++ evs ∧
    calls evs
    = [Stop {| id := py "4f2a" |}; Remove {| id := py "4f2a" |};
       PathExists (py "/tmp/w.sh")]
      ++ (if path_exists running_scenario then [Unlink (py "/tmp/w.sh")]
          else []).
Proof.
  apply (cleanup_attempts_every_step running_scenario {| id := py "4f2a" |}
           47 (py "tmp/w.sh")
           (with_wrapper_script_path_host (Some (py "/tmp/w.sh")) initial)).
  - reflexivity.
  - vm_compute. reflexivity.
Defined.

(** X2: when [init_container] returns the container, the script ends,
    however the analysis went, by asking for its stop and then for its
    remove, with printed text only in between; nothing before asked for
    either. *)
Theorem script_teardown_after_init E c s1 :
  init_container E script_image script_start = (Returns c, s1) →
  ∃ evs1 evs2 evs3,
    trace (script E initial).2 = evs1 ++ evs2 ++ evs3 ∧
    Forall (λ ev, is_teardown ev = false) evs1 ∧
    calls evs2 = [Stop c; Remove c] ∧
    Forall (λ ev, is_teardown ev = false) evs3.
Proof.
  intros Hinit. rewrite script_trace.
  destruct (script_try_init_returns E c s1 Hinit)
    as (r & s2 & evs & -> & Htr & Hp & Ht & Hc).
  destruct (emits_init_container _ E not_teardown_call script_image script_start)
    as (evs0 & Htr0 & Hp0 & Ht0 & _).
  rewrite Hinit in Htr0, Ht0. cbn [snd] in *.
  unfold script_finally. run. rewrite Ht, Ht0. cbn [trimmer script_start
    with_wrapper_script_path_host with_trimmer]. run. rewrite Hc.
  destruct (cleanup_Some E c s2) as (evsA & -> & HA).
  destruct (emits_remove_wrapper_script _ E not_teardown_call (logs evsA s2))
    as (evsB & -> & HpB & _).
  exists (evs0 ++ evs), evsA, evsB.
  rewrite trace_logs, Htr, Htr0. cbn [trace script_start initial
    with_wrapper_script_path_host with_trimmer with_container app].
  split; [symmetry; apply app_assoc|]. split; [|split; [done|]].
  - apply Forall_app. split; by apply Forall_not_teardown.
  - by apply Forall_not_teardown.
Qed.

Lemma script_teardown_after_init_witness :
  ∃ evs1 evs2 evs3,
    trace (script running_scenario initial).2 = evs1 ++ evs2 ++ evs3 ∧
    Forall (λ ev, is_teardown ev = false) evs1 ∧
    calls evs2 = [Stop {| id := py "4f2a" |}; Remove {| id := py "4f2a" |}] ∧
    Forall (λ ev, is_teardown ev = false) evs3.
Proof.
  eapply (script_teardown_after_init running_scenario {| id := py "4f2a" |}).
  vm_compute. reflexivity.
Defined.

(** C9, the defect in general: whenever [init_container] raises, be it
    after the container was run, the script ends without a stop or a
    remove of any container. *)
Lemma script_skips_teardown_when_init_raises E e s1 :
  init_container E script_image script_start = (Raises e, s1) →
  Forall (λ ev, is_teardown ev = false) (trace (script E initial).2).
Proof.
  intros Hinit. rewrite script_trace.
  destruct (script_try_init_raises E e s1 Hinit) as (fstring & args & ->).
  destruct (emits_init_container _ E not_teardown_call script_image script_start)
    as (evs0 & Htr0 & Hp0 & Ht0 & Hc0).
  rewrite Hinit in Htr0, Ht0, Hc0. cbn [snd] in *.
  unfold script_finally. run. cbn [trimmer log]. rewrite Ht0.
  cbn [trimmer script_start with_wrapper_script_path_host with_trimmer].
  run. cbn [container log]. rewrite Hc0.
  cbn [container script_start with_wrapper_script_path_host with_trimmer
    with_container].
  destruct (emits_cleanup_None _ E not_teardown_call (log (Print fstring args) s1))
    as (evs & -> & Hp & _).
  cbn [trace log]. rewrite Htr0.
  cbn [trace script_start initial with_wrapper_script_path_host with_trimmer
    with_container app].
  rewrite !Forall_app, Forall_singleton.
  split; [split; [|done]|]; by apply Forall_not_teardown.
Qed.

(** * More of the code *)

(** *** Steps along a relation *)

Section steps.

Context (R : state → state → Prop) `{!PreOrder R}.

Lemma steps_ret {A} (a : A) : steps R (mret a).
Proof. intros s. reflexivity. Qed.

Lemma steps_raise {A} c msg : steps R (raise (A:=A) c msg).
Proof. intros s. reflexivity. Qed.

Lemma steps_reraise {A} e : steps R (reraise (A:=A) e).
Proof. intros s. reflexivity. Qed.

Lemma steps_get {A} (field : state → A) : steps R (get field).
Proof. intros s. reflexivity. Qed.

Lemma steps_call {A} ev (answer : outcome A) :
  (∀ s, R s (log ev s)) → steps R (call ev answer).
Proof. intros H s. apply H. Qed.

Lemma steps_print fstring args :
  (∀ s, R s (log (Print fstring args) s)) → steps R (print fstring args).
Proof. apply steps_call. Qed.

Lemma steps_set_wrapper_script_path_host v :
  (∀ s, R s (with_wrapper_script_path_host v s)) →
  steps R (set_wrapper_script_path_host v).
Proof. intros H s. apply H. Qed.

Lemma steps_set_local_container v :
  (∀ s, R s (with_local_container v s)) → steps R (set_local_container v).
Proof. intros H s. apply H. Qed.

Lemma steps_set_trimmer v :
  (∀ s, R s (with_trimmer v s)) → steps R (set_trimmer v).
Proof. intros H s. apply H. Qed.

Lemma steps_set_container v :
  (∀ s, R s (with_container v s)) → steps R (set_container v).
Proof. intros H s. apply H. Qed.

Lemma steps_bind_post {A B} (Q : A → Prop) (m : M A) (f : A → M B) :
  steps R m → (∀ s a s', m s = (Returns a, s') → Q a) →
  (∀ a, Q a → steps R (f a)) → steps R (m ≫= f).
Proof.
  intros Hm HQ Hf s. unfold mbind, M_bind.
  pose proof (Hm s) as H1. pose proof (HQ s) as H2.
  destruct (m s) as [[a|e] s']; cbn [snd] in *; [|done].
  etrans; [exact H1|]. apply Hf. by eapply H2.
Qed.

Lemma steps_bind {A B} (m : M A) (f : A → M B) :
  steps R m → (∀ a, steps R (f a)) → steps R (m ≫= f).
Proof.
  intros Hm Hf. apply (steps_bind_post (λ _, True)); [done|done|].
  intros a _. apply Hf.
Qed.

Lemma steps_handler_for {A} (clauses : list (exc_class * (exn → M A))) e h :
  Forall (λ ch, ∀ e, steps R (ch.2 e)) clauses →
  handler_for clauses e = Some h → steps R h.
Proof.
  induction 1 as [|[c h'] clauses Hh _ IH]; cbn; [done|].
  destruct (isinstance e c); [|done]. intros [= <-]. apply Hh.
Qed.

Lemma steps_try_except {A} (body : M A) clauses :
  steps R body → Forall (λ ch, ∀ e, steps R (ch.2 e)) clauses →
  steps R (try_except body clauses).
Proof.
  intros Hb Hc s. unfold try_except. pose proof (Hb s) as H1.
  destruct (body s) as [[a|e] s']; cbn [snd] in *; [done|].
  destruct (handler_for clauses e) as [h|] eqn:Hh; [|done].
  etrans; [exact H1|]. by eapply steps_handler_for.
Qed.

Lemma steps_try_except_all {A} (body h : M A) :
  steps R body → steps R h → steps R (try_except_all body h).
Proof.
  intros Hb Hh s. unfold try_except_all. pose proof (Hb s) as H1.
  destruct (body s) as [[a|e] s']; cbn [snd] in *; [done|].
  etrans; [exact H1|]. apply Hh.
Qed.

Lemma steps_try_finally {A} (body : M A) final :
  steps R body → steps R final → steps R (try_finally body final).
Proof.
  intros Hb Hf s. rewrite snd_try_finally. etrans; [apply Hb|apply Hf].
Qed.

Lemma steps_decode_bytes E output : steps R (decode_bytes E output).
Proof.
  unfold decode_bytes. destruct (decode E output);
    [apply steps_ret|apply steps_raise].
Qed.

Lemma steps_print_each l :
  (∀ f s, R s (log (Print "{}" [AStr f]) s)) → steps R (print_each l).
Proof.
  intros H. induction l as [|f l IH]; cbn [print_each]; [apply steps_ret|].
  apply steps_bind; [apply steps_call, H|done].
Qed.

End steps.

#[global] Instance adds_preorder p : PreOrder (adds p).
Proof.
  split.
  - intros s. exists []. by rewrite app_nil_r.
  - intros s1 s2 s3 (evs & H1 & P1) (evs' & H2 & P2). exists (evs ++ evs').
    by rewrite H2, H1, app_assoc, Forall_app.
Qed.

#[global] Instance same_wrapper_preorder : PreOrder same_wrapper.
Proof. split; unfold same_wrapper; [done|]. intros ???; congruence. Qed.

#[global] Instance keeps_preorder : PreOrder keeps.
Proof.
  split; unfold keeps; [done|]. intros ??? [??] [??]. split; congruence.
Qed.

Lemma adds_log p ev s : p ev = true → adds p s (log ev s).
Proof. intros H. exists [ev]. by rewrite Forall_singleton. Qed.

Lemma adds_same_trace p s s' : trace s' = trace s → adds p s s'.
Proof. intros H. exists []. by rewrite app_nil_r. Qed.

Create HintDb steps discriminated.

(** Closes the condition of a step that leaves the trace or adds one
    event to it. *)
Ltac steps_side :=
  lazymatch goal with |- PreOrder _ => fail | |- _ => idtac end;
  intros;
  first
    [ reflexivity
    | apply adds_log; reflexivity
    | apply adds_same_trace; reflexivity
    | done ].

(** Closes the instance a lemma on steps may leave. *)
Ltac steps_order :=
  lazymatch goal with |- PreOrder _ => apply _ | |- _ => idtac end.

#[local] Hint Extern 0 (PreOrder _) => apply _ : steps.
#[local] Hint Resolve steps_ret steps_raise steps_reraise steps_get
  steps_decode_bytes : steps.
#[local] Hint Extern 1 (steps _ (call _ _)) =>
  apply steps_call; steps_order; steps_side : steps.
#[local] Hint Extern 1 (steps _ (print _ _)) =>
  apply steps_print; steps_order; steps_side : steps.
#[local] Hint Extern 1 (steps _ (print_each _)) =>
  apply steps_print_each; steps_order; steps_side : steps.
#[local] Hint Extern 1 (steps _ (set_wrapper_script_path_host _)) =>
  apply steps_set_wrapper_script_path_host; steps_order; steps_side : steps.
#[local] Hint Extern 1 (steps _ (set_local_container _)) =>
  apply steps_set_local_container; steps_order; steps_side : steps.
#[local] Hint Extern 1 (steps _ (set_trimmer _)) =>
  apply steps_set_trimmer; steps_order; steps_side : steps.
#[local] Hint Extern 1 (steps _ (set_container _)) =>
  apply steps_set_container; steps_order; steps_side : steps.

(** Splits a computation along its combinators. *)
Ltac steps_step :=
  lazymatch goal with
  | |- steps _ (_ ≫= _) =>
      apply steps_bind; steps_order; [|intros ?]
  | |- steps _ (try_except _ _) =>
      apply steps_try_except; steps_order;
      [|repeat apply Forall_cons_2; [..|apply Forall_nil_2];
        intros ?; cbn [snd]]
  | |- steps _ (try_except_all _ _) =>
      apply steps_try_except_all; steps_order
  | |- steps _ (try_finally _ _) => apply steps_try_finally; steps_order
  | |- steps _ (match ?x with _ => _ end) => destruct x
  | |- steps _ (if ?x then _ else _) => destruct x
  | |- steps _ (let '(_, _) := ?x in _) => destruct x
  | |- steps _ _ => solve [auto with steps]
  end.

Ltac solve_steps := repeat steps_step.

(** ** The parse, read off the text *)

(** What a line adds. *)
Lemma elem_of_line_paths line p :
  lf ∉ line →
  p ∈ line_paths line ↔ p ≠ [] ∧ first_quoted_after_syscall line p.
Proof.
  intros Hlf. rewrite line_paths_spec by done. rewrite <- search_spec_Some.
  destruct (search_spec line) as [[|c q]|].
  - rewrite elem_of_empty. split; [done|]. by intros [Hne [= <-]].
  - rewrite elem_of_singleton. split; [by intros ->|]. by intros [_ [= <-]].
  - rewrite elem_of_empty. split; [done|]. by intros [_ ?].
Qed.

Lemma splitlines_no_break log line :
  line ∈ splitlines log → Forall (λ c, is_linebreak c = false) line.
Proof. apply splitlines_from_no_break. apply Forall_nil_2. Qed.

Lemma size_line_paths line : (size (line_paths line) ≤ 1)%nat.
Proof.
  unfold line_paths, parse_line.
  destruct (search regex line) as [m|]; [|rewrite size_empty; lia].
  destruct (m !! 2%nat) as [[|c q]|]; rewrite ?size_empty; try lia.
  rewrite union_empty_r_L, size_singleton. lia.
Qed.

Lemma size_union_le (X Y : gset (list N)) :
  (size (X ∪ Y) ≤ size X + size Y)%nat.
Proof.
  rewrite size_union_alt. apply Nat.add_le_mono_l, subseteq_size. set_solver.
Qed.

Lemma splitlines_from_app f cur a :
  (f = true → cur = []) →
  ∃ L f' cur',
    (f' = true → cur' = []) ∧
    ∀ rest, splitlines_from f cur (a ++ rest) = L ++ splitlines_from f' cur' rest.
Proof.
  revert f cur. induction a as [|c a IH]; intros f cur Hf.
  - by exists [], f, cur.
  - cbn [app splitlines_from]. destruct (f && (c =? lf)) eqn:E1.
    + destruct (IH false cur) as (L & f' & cur' & H1 & H2); [done|].
      by exists L, f', cur'.
    + destruct (is_linebreak c) eqn:E2.
      * destruct (IH (c =? cr) []) as (L & f' & cur' & H1 & H2); [done|].
        exists (cur :: L), f', cur'. split; [done|]. intros rest. by rewrite H2.
      * destruct (IH false (cur ++ [c])) as (L & f' & cur' & H1 & H2); [done|].
        by exists L, f', cur'.
Qed.

Lemma line_paths_nil : line_paths [] = ∅.
Proof. by vm_compute. Qed.

(** ** The ignorable paths *)

Lemma COMMON_SYSTEM_DIRS_slash prefix :
  prefix ∈ COMMON_SYSTEM_DIRS → py "/" `prefix_of` prefix.
Proof.
  revert prefix. apply Forall_forall.
  repeat apply Forall_cons_2; [..|apply Forall_nil_2];
    eexists; vm_compute; reflexivity.
Qed.

(** ** The session *)

(** *** [init_container] *)

Lemma get_image_config_cases E image s :
  (∃ x, images_get E = Returns x ∧
        _get_image_config E image s = (Returns x, log (ImagesGet image) s)) ∨
  (∃ e e', images_get E = Raises e ∧
           _get_image_config E image s = (Raises e', log (ImagesGet image) s)).
Proof.
  unfold _get_image_config, try_except. run.
  destruct (images_get E) as [x|e]; [left; eauto|right].
  cbn [handler_for].
  destruct (isinstance e ImageNotFound); [by eauto|].
  destruct (isinstance e APIError); by eauto.
Qed.

Lemma check_running_returns E c s c' s' :
  check_running E c s = (Returns c', s') →
  c' = c ∧ reload E = Returns (py "running") ∧ same_wrapper s s'.
Proof.
  unfold check_running. run. destruct (reload E) as [status|e]; run; [|done].
  destruct (decide (status = py "running")) as [->|Hne].
  - rewrite bool_decide_eq_false_2 by (by intros ?). run. by intros [= <- <-].
  - rewrite bool_decide_eq_true_2 by done.
    destruct (logs_startup E) as [output|e]; run; [|done].
    unfold decode_bytes. destruct (decode E output); by run.
Qed.

Lemma init_container_body_returns E image s c s' :
  init_container_body E image s = (Returns c, s') →
  containers_run E = Returns c ∧ reload E = Returns (py "running") ∧
  ∃ path, mktemp E = Returns path ∧ wrapper_script_path_host s' = Some path.
Proof.
  unfold init_container_body.
  destruct (get_image_config_cases E image s)
    as [([e c0] & _ & Hg)|(e & e' & _ & Hg)].
  - rewrite (run_bind_returns _ _ _ _ _ Hg). cbv beta iota. run.
    destruct (command_to_wrap e c0) as [|x l]; [by run|]. run.
    destruct (mktemp E) as [path|e1]; run; [|done].
    destruct (write_wrapper E) as [[]|e1]; run; [|done].
    destruct (chmod E) as [[]|e1]; run; [|done].
    rewrite run_and_check_logs.
    destruct (containers_run E) as [c1|e1]; [|done].
    intros (-> & Hr & Hw)%check_running_returns.
    split; [done|]. split; [done|]. exists path. split; [done|].
    by rewrite Hw.
  - by rewrite (run_bind_raises _ _ _ _ _ Hg).
Qed.

(** Whatever the [try] block of [init_container] raises, a clause takes
    it and raises a [RuntimeError]. *)
Lemma init_container_clauses_raise E image e s :
  ∃ h,
    handler_for (init_container_clauses E image) e = Some h ∧
    ∃ msg s', h s = (Raises (Exn RuntimeError msg), s').
Proof.
  unfold init_container_clauses. cbn [handler_for].
  destruct (isinstance e ImageNotFound); [by eauto|].
  destruct (isinstance e APIError).
  - eexists. split; [done|]. run.
    destruct (local_container s) as [c|]; [|run; by eauto].
    rewrite run_bind. unfold try_except_all.
    destruct (logs_api_error E) as [output|e1]; run; [|by eauto].
    unfold decode_bytes. destruct (decode E output); run; by eauto.
  - rewrite isinstance_Exception. by eauto.
Qed.

Lemma get_image_config_raises E image e s :
  images_get E = Raises e →
  _get_image_config E image s
  = (Raises
       (if isinstance e ImageNotFound then
          Exn RuntimeError
            (py "Image '" ++ image ++ py "' not found during inspection.")
        else if isinstance e APIError then
          Exn RuntimeError
            (py "Error inspecting image '" ++ image ++ py "': " ++ exc_str e)
        else e),
     log (ImagesGet image) s).
Proof.
  intros H. unfold _get_image_config, try_except. run. rewrite H.
  cbn [handler_for].
  destruct (isinstance e ImageNotFound); [done|].
  by destruct (isinstance e APIError).
Qed.

(** *** The script never raises *)

Lemma remove_wrapper_script_returns E s :
  raises_only OSError (unlink E) →
  ∃ s', remove_wrapper_script E s = (Returns (), s').
Proof.
  intros Hos.
  destruct (wrapper_script_path_host s) as [[|ch rest]|] eqn:Hw.
  - unfold remove_wrapper_script. run. rewrite Hw. by eauto.
  - destruct (remove_wrapper_script_runs E ch rest s Hw Hos) as (evs & -> & _).
    by eauto.
  - unfold remove_wrapper_script. run. rewrite Hw. by eauto.
Qed.

Lemma cleanup_returns E c s :
  raises_only OSError (unlink E) → ∃ s', cleanup E c s = (Returns (), s').
Proof.
  intros Hos. destruct c as [c|].
  - destruct (cleanup_Some E c s) as (evs & -> & _).
    by apply remove_wrapper_script_returns.
  - unfold cleanup. run. by apply remove_wrapper_script_returns.
Qed.

Lemma script_try_returns E s :
  ∃ s', try_except (script_body E) script_clauses s = (Returns (), s').
Proof.
  unfold try_except. destruct (script_body E s) as [[[]|e] s']; [by eauto|].
  destruct (script_clauses_print e) as (fstring & args & ->). run. by eauto.
Qed.

(** *** The invocation and what depends on it *)

Lemma isinstance_Timeout_RequestException e :
  isinstance e Timeout = true → isinstance e RequestException = true.
Proof. destruct e as [[] msg]; by vm_compute. Qed.

Lemma trigger_status_200 E s status text s' :
  trigger_lambda_in_container E s = (Returns (status, text), s') →
  status = 200%Z → post E = Returns (200%Z, text).
Proof.
  unfold trigger_lambda_in_container, try_except.
  destruct (post E) as [[status_code body]|e]; run.
  - destruct (decide (300 ≤ status_code)%Z).
    + rewrite bool_decide_eq_true_2 by done. run. intros [= <- <-] ->. lia.
    + rewrite bool_decide_eq_false_2 by done. run. by intros [= <- <-] ->.
  - cbn [handler_for].
    destruct (isinstance e Timeout); [run; intros [= <- <-]; lia|].
    destruct (isinstance e RequestException); run; [|done].
    intros [= <- <-]; lia.
Qed.

(** *** The commands run in the container *)
Section no_exec.

Variable E : scenario.

#[local] Abbreviation quiet := (adds (λ ev, negb (is_exec ev))).

Lemma quiet_init_container image : steps quiet (init_container E image).
Proof.
  unfold init_container, init_container_clauses, init_container_body,
    _get_image_config, run_and_check, check_running.
  steps_step; [solve_steps|]. steps_step; [|solve_steps..].
  steps_step; [solve_steps|]. destruct a0 as [ep cmd].
  do 2 (steps_step; [solve_steps|]). cbv zeta.
  destruct (command_to_wrap ep cmd); solve_steps.
Qed.

Lemma quiet_cleanup c : steps quiet (cleanup E c).
Proof.
  unfold cleanup, stop_container, stop_container_clauses, remove_container,
    remove_container_clauses, remove_wrapper_script. solve_steps.
Qed.

Lemma quiet_analysis c :
  (∀ text, post E ≠ Returns (200%Z, text)) → steps quiet (analysis E c).
Proof.
  intros Hpost. unfold analysis. steps_step; [solve_steps|].
  apply (steps_bind_post _ (λ r, r.1 ≠ 200%Z)).
  - unfold trigger_lambda_in_container. solve_steps.
  - intros s [status text] s' Hr Hs. cbn in Hs.
    by apply (Hpost text), (trigger_status_200 E s status text s').
  - intros [status text] Hs. cbn in Hs.
    do 2 (steps_step; [solve_steps|]).
    rewrite bool_decide_eq_true_2 by done.
    unfold get_memory_usage. solve_steps.
Qed.

Lemma quiet_script :
  (∀ text, post E ≠ Returns (200%Z, text)) → steps quiet (script E).
Proof.
  intros Hpost. unfold script, script_body, script_finally, script_clauses.
  solve_steps;
    first [apply quiet_init_container|by apply quiet_analysis
          |apply quiet_cleanup].
Qed.

End no_exec.

(** *** The wrapper script on every way out *)

Lemma remove_wrapper_script_asks E (ch : N) rest s :
  wrapper_script_path_host s = Some (ch :: rest) →
  ∃ evs,
    trace (remove_wrapper_script E s).2
    = trace s ++ PathExists (ch :: rest) :: evs ∧
    (path_exists E = true → ∃ evs', evs = Unlink (ch :: rest) :: evs').
Proof.
  intros Hw. unfold remove_wrapper_script. run. rewrite Hw.
  cbv beta iota zeta. run. destruct (path_exists E); cbv beta iota.
  - rewrite run_bind. unfold try_except at 1.
    destruct (unlink E) as [[]|e]; run.
    + cbn. rewrite <- !app_assoc. by eauto.
    + cbn [handler_for]. destruct (isinstance e OSError); run;
        cbn; rewrite <- ?app_assoc; by eauto.
  - run. cbn. by exists [].
Qed.

Lemma cleanup_asks E c (ch : N) rest s :
  wrapper_script_path_host s = Some (ch :: rest) →
  PathExists (ch :: rest) ∈ trace (cleanup E c s).2 ∧
  (path_exists E = true → Unlink (ch :: rest) ∈ trace (cleanup E c s).2).
Proof.
  intros Hw.
  assert (∃ evs, cleanup E c s = remove_wrapper_script E (logs evs s))
    as [evs ->].
  { destruct c as [c|].
    - destruct (cleanup_Some E c s) as (evs & -> & _). by eauto.
    - exists []. unfold cleanup. by run. }
  destruct (frame_logs evs s) as (Hw' & _). rewrite <- Hw' in Hw.
  destruct (remove_wrapper_script_asks E ch rest _ Hw) as (evs' & -> & Hu).
  split.
  - apply elem_of_app. right. left.
  - intros [evs'' ->]%Hu. apply elem_of_app. right. right. left.
Qed.

Section wrapper.

Variable E : scenario.

#[local] Abbreviation fresh_file := (adds (λ ev, negb (is_mktemp ev))).

Lemma init_container_clauses_keep image :
  Forall (λ ch, ∀ e, steps same_wrapper (ch.2 e)) (init_container_clauses E image).
Proof.
  unfold init_container_clauses.
  repeat apply Forall_cons_2; [..|apply Forall_nil_2]; intros ?; cbn [snd];
    solve_steps.
Qed.

Lemma init_container_clauses_no_mktemp image :
  Forall (λ ch, ∀ e, steps fresh_file (ch.2 e)) (init_container_clauses E image).
Proof.
  unfold init_container_clauses.
  repeat apply Forall_cons_2; [..|apply Forall_nil_2]; intros ?; cbn [snd];
    solve_steps.
Qed.

(** An exception of the [try] block of [init_container] before the
    temporary file is asked for leaves no path and no request for one. *)
Lemma init_container_raises_early image s e s1 :
  wrapper_script_path_host s = None →
  init_container_body E image (with_local_container None s) = (Raises e, s1) →
  wrapper_script_path_host s1 = None → fresh_file s s1 →
  ∃ e' s', init_container E image s = (Raises e', s') ∧
           wrapper_script_path_host s' = None ∧ fresh_file s s'.
Proof.
  intros Hw Hb Hw1 Hf. unfold init_container. run.
  destruct (init_container_clauses_raise E image e s1)
    as (h & Hh & msg & s' & Hs').
  rewrite (run_try_except_raises _ _ _ _ _ _ Hb Hh), Hs'.
  eexists _, _. split; [done|].
  pose proof (steps_handler_for _ _ e h (init_container_clauses_keep image) Hh s1)
    as Hk.
  pose proof (steps_handler_for _ _ e h (init_container_clauses_no_mktemp image)
                Hh s1) as Hn.
  rewrite Hs' in Hk, Hn. cbn [snd] in Hk, Hn. split.
  - by rewrite Hk.
  - by etrans.
Qed.

Lemma init_container_body_tmp image ep cmd path s :
  images_get E = Returns (ep, cmd) → command_to_wrap ep cmd ≠ [] →
  mktemp E = Returns path →
  init_container_body E image s
  = (call (WriteWrapper path) (write_wrapper E);;
     call (Chmod path) (chmod E);;
     print "Created temporary wrapper script: {}" [AStr path];;
     run_and_check E image (command_to_wrap ep cmd) path)
      (with_wrapper_script_path_host (Some path)
         (log MkTemp
            (log (Print "Command sequence being wrapped: {}"
                    [AList (command_to_wrap ep cmd)])
               (log (Print "Image Original Cmd: {}" [ACmd cmd])
                  (log (Print "Image Original Entrypoint: {}" [ACmd ep])
                     (log (ImagesGet image) s)))))).
Proof.
  intros Himg Hcmd Htmp. unfold init_container_body.
  rewrite (run_bind_returns _ _ _ _ _ (get_image_config_returns _ _ _ _ Himg)).
  cbv beta iota. run. destruct (command_to_wrap ep cmd) as [|x l]; [done|].
  rewrite Htmp. by run.
Qed.

Lemma init_container_wrapper image path s :
  mktemp E = Returns path → wrapper_script_path_host s = None →
  (∃ e s', init_container E image s = (Raises e, s') ∧
           wrapper_script_path_host s' = None ∧ fresh_file s s') ∨
  wrapper_script_path_host (init_container E image s).2 = Some path.
Proof.
  intros Htmp Hw.
  destruct (get_image_config_cases E image (with_local_container None s))
    as [([ep cmd] & Himg & Hg)|(e & e' & _ & Hg)].
  - destruct (command_to_wrap ep cmd) as [|x l] eqn:Hcmd.
    + left. eapply init_container_raises_early; [done| | |].
      * by apply init_container_body_no_command.
      * done.
      * exists [ImagesGet image;
                Print "Image Original Entrypoint: {}" [ACmd ep];
                Print "Image Original Cmd: {}" [ACmd cmd]].
        split; [by cbn; rewrite <- !app_assoc|].
        by repeat apply Forall_cons_2; [..|apply Forall_nil_2].
    + right. unfold init_container. run.
      erewrite run_try_except_ext;
        [|by apply (init_container_body_tmp _ ep cmd path);
             [|rewrite Hcmd|]].
      match goal with
      | |- context [try_except ?b ?cl ?s1] =>
          assert (steps same_wrapper (try_except b cl)) as Hs;
          [|by rewrite (Hs s1)]
      end.
      apply steps_try_except; [apply _| |apply init_container_clauses_keep].
      unfold run_and_check, check_running. solve_steps.
  - left. eapply init_container_raises_early; [done| | |].
    + unfold init_container_body. by rewrite (run_bind_raises _ _ _ _ _ Hg).
    + done.
    + exists [ImagesGet image]. split; [done|]. by apply Forall_singleton.
Qed.

End wrapper.

(** What a [try] statement whose block starts with [m] does after [m]. *)
Lemma steps_after {A B} (R : state → state → Prop) `{!PreOrder R}
    (m : M A) (k : A → M B) clauses s :
  (∀ a, steps R (k a)) → Forall (λ ch, ∀ e, steps R (ch.2 e)) clauses →
  R (m s).2 (try_except (m ≫= k) clauses s).2.
Proof.
  intros Hk Hc. unfold try_except, mbind, M_bind.
  destruct (m s) as [[a|e] s1]; cbn [snd].
  - pose proof (Hk a s1) as H1. destruct (k a s1) as [[b|e] s2]; cbn [snd] in *;
      [done|].
    destruct (handler_for clauses e) as [h|] eqn:Hh; [|done].
    etrans; [exact H1|]. by apply (steps_handler_for R clauses e h).
  - destruct (handler_for clauses e) as [h|] eqn:Hh; [|done].
    by apply (steps_handler_for R clauses e h).
Qed.

Section script_wrapper.

Variable E : scenario.

#[local] Abbreviation fresh_file := (adds (λ ev, negb (is_mktemp ev))).

Lemma keeps_analysis c : steps keeps (analysis E c).
Proof.
  unfold analysis, trigger_lambda_in_container, retrieve_strace_log,
    get_memory_usage.
  solve_steps.
Qed.

Lemma script_try_keeps :
  keeps (init_container E script_image script_start).2
    (try_except (script_body E) script_clauses
       (with_trimmer false (with_container None initial))).2.
Proof.
  rewrite (run_try_except_ext _
             (c ← init_container E script_image;
              set_container (Some c);;
              c ← get container;
              match c with
              | Some c => analysis E c
              | None => mret ()
              end) _ _ script_start)
    by (unfold script_body; by run).
  apply steps_after; [apply _| |].
  - intros c. solve_steps. apply keeps_analysis.
  - unfold script_clauses.
    repeat apply Forall_cons_2; [..|apply Forall_nil_2]; intros ?; cbn [snd];
      solve_steps.
Qed.

Lemma fresh_file_cleanup c : steps fresh_file (cleanup E c).
Proof.
  unfold cleanup, stop_container, stop_container_clauses, remove_container,
    remove_container_clauses, remove_wrapper_script. solve_steps.
Qed.

End script_wrapper.

Lemma steps_adds_mono {A} (p q : event → bool) (m : M A) :
  (∀ ev, p ev = true → q ev = true) → steps (adds p) m → steps (adds q) m.
Proof.
  intros Hpq Hm s. destruct (Hm s) as (evs & Htr & Hp). exists evs.
  split; [done|]. eapply Forall_impl; [exact Hp|]. exact Hpq.
Qed.

Lemma not_exec_not_other ev :
  negb (is_exec ev) = true → negb (is_other_exec ev) = true.
Proof. by destruct ev. Qed.

Section cat_only.

Variable E : scenario.

#[local] Abbreviation cat_only := (adds (λ ev, negb (is_other_exec ev))).

Lemma cat_only_analysis c : steps cat_only (analysis E c).
Proof.
  unfold analysis, trigger_lambda_in_container, retrieve_strace_log,
    get_memory_usage.
  solve_steps.
Qed.

Lemma cat_only_script : steps cat_only (script E).
Proof.
  unfold script, script_body, script_finally, script_clauses.
  solve_steps;
    first [apply (steps_adds_mono _ _ _ not_exec_not_other),
             quiet_init_container
          |apply cat_only_analysis
          |apply (steps_adds_mono _ _ _ not_exec_not_other), quiet_cleanup].
Qed.

End cat_only.

(** *** The report of the accessed files *)

Lemma run_bind_assoc {A B C} (m : M A) (f : A → M B) (g : B → M C) s :
  ((m ≫= f) ≫= g) s = (m ≫= λ a, f a ≫= g) s.
Proof. unfold mbind, M_bind. by destruct (m s) as [[a|e] s']. Qed.

Lemma print_each_logs l s :
  print_each l s = (Returns (), logs ((λ f, Print "{}" [AStr f]) <$> l) s).
Proof.
  revert s. induction l as [|f l IH]; intros s; cbn [print_each]; [done|].
  run. by rewrite IH.
Qed.

Lemma str_leb_total a b : str_leb a b = true ∨ str_leb b a = true.
Proof.
  revert b. induction a as [|x a IH]; intros [|y b]; cbn; auto.
  destruct (N.ltb_spec x y), (N.ltb_spec y x); auto; lia.
Qed.

Lemma str_leb_trans a b c :
  str_leb a b = true → str_leb b c = true → str_leb a c = true.
Proof.
  revert b c. induction a as [|x a IH]; intros [|y b] [|z c]; cbn; try done.
  destruct (N.ltb_spec x y), (N.ltb_spec y x), (N.ltb_spec y z),
    (N.ltb_spec z y), (N.ltb_spec x z), (N.ltb_spec z x);
    try done; try lia. apply IH.
Qed.

#[local] Instance str_leb_Total : Total (λ a b, Is_true (str_leb a b)).
Proof.
  intros a b. destruct (str_leb_total a b) as [->| ->]; [by left|by right].
Qed.

#[local] Instance str_leb_Transitive : Transitive (λ a b, Is_true (str_leb a b)).
Proof.
  intros a b c ?%Is_true_true ?%Is_true_true. apply Is_true_true.
  by eapply str_leb_trans.
Qed.

Lemma StronglySorted_Is_true {A} (f : A → A → bool) l :
  StronglySorted (λ a b, Is_true (f a b)) l →
  StronglySorted (λ a b, f a b = true) l.
Proof.
  induction 1 as [|a l _ IH Ha]; constructor; [done|].
  eapply Forall_impl; [exact Ha|]. intros b. apply Is_true_true.
Qed.

(** [sorted(list(s))] holds the elements of [s], each once, in the order
    of [str]. *)
Lemma sorted_spec (X : gset str) :
  (∀ f, f ∈ sorted X ↔ f ∈ X) ∧ NoDup (sorted X) ∧
  StronglySorted (λ a b, str_leb a b = true) (sorted X) ∧
  length (sorted X) = size X.
Proof.
  assert (sorted X ≡ₚ elements X) as Hp by apply merge_sort_Permutation.
  split; [|split; [|split]].
  - intros f. by rewrite Hp, elem_of_elements.
  - rewrite Hp. apply NoDup_elements.
  - apply StronglySorted_Is_true, (StronglySorted_merge_sort _).
  - by rewrite Hp.
Qed.
(** * More properties of the code *)

(** X4: a text is in the set [parse_strace_file_accesses] returns exactly
    when it is not empty and is, on some line of the log, the first quoted
    text after a syscall name. *)
Theorem parse_returns_first_quoted log p :
  p ∈ parse_strace_file_accesses log ↔
  p ≠ [] ∧ ∃ line, line ∈ splitlines log ∧ first_quoted_after_syscall line p.
Proof.
  rewrite parse_strace_file_accesses_union, elem_of_union_list. split.
  - intros (X & HX & Hp). apply list_elem_of_fmap in HX as (line & -> & Hl).
    apply elem_of_line_paths in Hp as [Hne Hq]; [|by eapply splitlines_no_lf].
    eauto.
  - intros (Hne & line & Hl & Hq). exists (line_paths line). split.
    + apply list_elem_of_fmap. by exists line.
    + apply elem_of_line_paths; [by eapply splitlines_no_lf|done].
Qed.

(** X5: every path the parse returns stands in the log between two double
    quotes on one line: it is not empty and holds neither a double quote
    nor a line boundary. *)
Theorem parse_paths_shape log p :
  p ∈ parse_strace_file_accesses log →
  p ≠ [] ∧ (dq ∉ p) ∧ Forall (λ c, is_linebreak c = false) p ∧
  ∃ line a b, line ∈ splitlines log ∧ line = a ++ dq :: p ++ dq :: b.
Proof.
  rewrite parse_strace_file_accesses_union, elem_of_union_list.
  intros (X & HX & Hp). apply list_elem_of_fmap in HX as (line & -> & Hl).
  apply elem_of_line_paths in Hp
    as (Hne & i & a & b & _ & _ & Hd & _ & Hq); [|by eapply splitlines_no_lf].
  split; [done|]. split; [done|].
  assert (line = (take i line ++ a) ++ dq :: p ++ dq :: b) as Hline.
  { by rewrite <- app_assoc, <- Hd, take_drop. }
  split; [|by eauto 6].
  pose proof (splitlines_no_break _ _ Hl) as Hb. rewrite Hline in Hb.
  apply Forall_app in Hb as [_ Hb]. apply Forall_cons in Hb as [_ Hb].
  by apply Forall_app in Hb as [Hb _].
Qed.

Lemma parse_paths_shape_witness :
  py "/etc/passwd" ≠ [] ∧ (dq ∉ py "/etc/passwd") ∧
  Forall (λ c, is_linebreak c = false) (py "/etc/passwd") ∧
  ∃ line a b,
    line ∈ splitlines openat_line ∧
    line = a ++ dq :: py "/etc/passwd" ++ dq :: b.
Proof.
  apply (parse_paths_shape openat_line (py "/etc/passwd")).
  apply (bool_decide_unpack _). vm_compute. exact I.
Defined.

(** X6: the parse returns at most one path for each line of the log. *)
Theorem parse_one_path_per_line log :
  (size (parse_strace_file_accesses log) ≤ length (splitlines log))%nat.
Proof.
  rewrite parse_strace_file_accesses_union.
  induction (splitlines log) as [|l ls IH].
  - by rewrite fmap_nil, union_list_nil, size_empty.
  - rewrite fmap_cons, union_list_cons. cbn [length].
    etrans; [apply size_union_le|]. pose proof (size_line_paths l). lia.
Qed.

(** X7: the parse of two logs joined by a line feed is the union of their
    parses: no match runs across the line feed. *)
Theorem parse_app_lf a b :
  parse_strace_file_accesses (a ++ lf :: b)
  = parse_strace_file_accesses a ∪ parse_strace_file_accesses b.
Proof.
  rewrite !parse_strace_file_accesses_union. unfold splitlines.
  destruct (splitlines_from_app false [] a) as (L & f' & cur' & Hf & HL); [done|].
  pose proof (HL []) as HL0. rewrite app_nil_r in HL0. rewrite HL, HL0.
  rewrite !fmap_app, !union_list_app_L. cbn [splitlines_from].
  destruct f'.
  - rewrite (Hf eq_refl). cbn [andb]. change (lf =? lf) with true. cbv iota.
    rewrite fmap_nil, union_list_nil. set_solver.
  - cbn [andb]. change (is_linebreak lf) with true. cbv iota.
    change (lf =? cr) with false. rewrite fmap_cons, union_list_cons.
    destruct cur'; rewrite ?fmap_nil, ?fmap_cons, ?union_list_nil,
      ?union_list_cons, ?line_paths_nil; set_solver.
Qed.

(** X8: [is_ignorable] looks at the beginning of the path only: a path is
    ignorable exactly when an entry of [COMMON_SYSTEM_DIRS] is a prefix of
    it, without a test that the entry ends at a path separator; so
    whatever is appended to an ignorable path, be it no new component, is
    ignorable. *)
Theorem is_ignorable_prefix_only :
  (∀ filepath,
     is_ignorable filepath = true ↔
     ∃ prefix, prefix ∈ COMMON_SYSTEM_DIRS ∧ prefix `prefix_of` filepath) ∧
  (∀ filepath rest,
     is_ignorable filepath = true → is_ignorable (filepath ++ rest) = true).
Proof.
  assert (∀ filepath,
     is_ignorable filepath = true ↔
     ∃ prefix, prefix ∈ COMMON_SYSTEM_DIRS ∧ prefix `prefix_of` filepath) as H.
  { intros filepath. rewrite is_ignorable_true. split; [by intros [_ ?]|].
    intros (prefix & Hin & Hp). split; [|eauto].
    etrans; [by apply COMMON_SYSTEM_DIRS_slash|done]. }
  split; [done|]. intros filepath rest (prefix & Hin & Hp)%H.
  apply H. exists prefix. split; [done|]. by apply prefix_app_r.
Qed.

Lemma is_ignorable_prefix_only_witness :
  is_ignorable (py "/tmp" ++ py "late/model.bin") = true.
Proof.
  apply (proj2 is_ignorable_prefix_only (py "/tmp") (py "late/model.bin")).
  vm_compute. reflexivity.
Defined.

(** X9: [filter_accessed_files] returns a subset of its argument, changes
    nothing when applied again, and goes through unions and differences
    of sets. *)
Theorem filter_accessed_files_algebra (S T : gset (list N)) :
  filter_accessed_files S ⊆ S ∧
  filter_accessed_files (filter_accessed_files S) = filter_accessed_files S ∧
  filter_accessed_files (S ∪ T)
  = filter_accessed_files S ∪ filter_accessed_files T ∧
  filter_accessed_files (S ∖ T)
  = filter_accessed_files S ∖ filter_accessed_files T.
Proof.
  split; [|split; [|split]].
  - intros p. rewrite elem_of_filter_accessed_files. tauto.
  - apply set_eq. intros p. rewrite !elem_of_filter_accessed_files. tauto.
  - apply set_eq. intros p.
    rewrite elem_of_union, !elem_of_filter_accessed_files, elem_of_union. tauto.
  - apply set_eq. intros p.
    rewrite elem_of_difference, !elem_of_filter_accessed_files,
      elem_of_difference. tauto.
Qed.

(** X10: the two lists of [compare_file_sets] rebuild each set from the
    other: [before] without the deleted files and with the added ones is
    [after], and back; comparing in the other direction swaps the lists. *)
Theorem compare_file_sets_reconstructs (before after : gset (list N)) :
  (before ∖ list_to_set (deleted_files (compare_file_sets before after)))
    ∪ list_to_set (added_files (compare_file_sets before after)) = after ∧
  (after ∖ list_to_set (added_files (compare_file_sets before after)))
    ∪ list_to_set (deleted_files (compare_file_sets before after)) = before ∧
  added_files (compare_file_sets before after)
  = deleted_files (compare_file_sets after before).
Proof.
  unfold compare_file_sets. cbn [added_files deleted_files].
  rewrite !list_to_set_elements_L. split; [|split; [|done]].
  - apply set_eq. intros p.
    rewrite elem_of_union, !elem_of_difference.
    destruct (decide (p ∈ before)), (decide (p ∈ after)); tauto.
  - apply set_eq. intros p.
    rewrite elem_of_union, !elem_of_difference.
    destruct (decide (p ∈ before)), (decide (p ∈ after)); tauto.
Qed.

(** X11: [init_container] returns a container only if [containers.run]
    returned it and its status after the wait is [running], and then the
    path of the wrapper script is the name of the temporary file; every
    exception it lets out is a [RuntimeError]. *)
Theorem init_container_outcome E image s :
  match (init_container E image s).1 with
  | Returns c =>
      containers_run E = Returns c ∧ reload E = Returns (py "running") ∧
      ∃ path,
        mktemp E = Returns path ∧
        wrapper_script_path_host (init_container E image s).2 = Some path
  | Raises e => exc_type e = RuntimeError
  end.
Proof.
  unfold init_container. run. unfold try_except.
  destruct (init_container_body E image (with_local_container None s))
    as [[c|e] s'] eqn:Hb.
  - by apply init_container_body_returns in Hb.
  - destruct (init_container_clauses_raise E image e s')
      as (h & -> & msg & s'' & ->). done.
Qed.

(** X12: when the inspection of the image raises, [init_container] asks
    the engine for nothing else and leaves the wrapper path as it was; the
    [RuntimeError] of [_get_image_config] does not pass the last clause of
    [init_container] unchanged: the message that comes out is the one of
    the unexpected error, with the message of the inspection inside. *)
Theorem init_container_inspection_failure E image e s :
  images_get E = Raises e →
  (init_container E image s).1
  = Raises (Exn RuntimeError
      (py "An unexpected error occurred during container initialization: "
       ++ (if isinstance e ImageNotFound then
             py "Image '" ++ image ++ py "' not found during inspection."
           else if isinstance e APIError then
             py "Error inspecting image '" ++ image ++ py "': " ++ exc_str e
           else exc_str e))) ∧
  trace (init_container E image s).2 = trace s ++ [ImagesGet image] ∧
  wrapper_script_path_host (init_container E image s).2
  = wrapper_script_path_host s.
Proof.
  intros H. unfold init_container. run.
  pose proof (get_image_config_raises E image e (with_local_container None s) H)
    as Hg.
  set (e' := if isinstance e ImageNotFound then _ else _) in Hg.
  assert (isinstance e' ImageNotFound = false ∧ isinstance e' APIError = false)
    as [H1 H2].
  { unfold e'. destruct (isinstance e ImageNotFound) eqn:E1; [by vm_compute|].
    by destruct (isinstance e APIError) eqn:E2; [vm_compute|]. }
  rewrite (run_try_except_raises _ _ _ e' (log (ImagesGet image)
             (with_local_container None s))
             (raise RuntimeError
                (py "An unexpected error occurred during container initialization: "
                   ++ exc_str e'))).
  - run. cbn [fst snd trace log with_local_container wrapper_script_path_host].
    split; [|done]. do 3 f_equal. unfold e'.
    destruct (isinstance e ImageNotFound); [done|].
    by destruct (isinstance e APIError).
  - unfold init_container_body. by rewrite (run_bind_raises _ _ _ _ _ Hg).
  - unfold init_container_clauses. cbn [handler_for].
    by rewrite H1, H2, isinstance_Exception.
Qed.

Lemma init_container_inspection_failure_witness :
  (init_container missing_image_scenario script_image initial).1
  = Raises (Exn RuntimeError
      (py "An unexpected error occurred during container initialization: "
       ++ py "Image '" ++ script_image ++ py "' not found during inspection.")) ∧
  trace (init_container missing_image_scenario script_image initial).2
  = [ImagesGet script_image] ∧
  wrapper_script_path_host
    (init_container missing_image_scenario script_image initial).2 = None.
Proof.
  apply (init_container_inspection_failure missing_image_scenario script_image
           (Exn ImageNotFound
              (py "404 Not Found: No such image: docker-image:test")) initial).
  reflexivity.
Defined.

(** X13: when the wrapper script is on the host and [containers.run]
    raises, [init_container] raises the [RuntimeError] of the clause that
    takes the exception, after the calls up to the run and none after it,
    and the wrapper path is still set, so a later [cleanup] finds the
    file. *)
Theorem init_container_run_failure E image ep cmd path e s :
  images_get E = Returns (ep, cmd) → command_to_wrap ep cmd ≠ [] →
  mktemp E = Returns path → write_wrapper E = Returns () →
  chmod E = Returns () → containers_run E = Raises e →
  (init_container E image s).1
  = Raises (Exn RuntimeError
      (if isinstance e ImageNotFound then
         py "Image '" ++ image ++ py "' not found."
       else if isinstance e APIError then
         py "Error starting container: " ++ exc_str e
       else
         py "An unexpected error occurred during container initialization: "
           ++ exc_str e)) ∧
  calls (trace (init_container E image s).2)
  = calls (trace s) ++
    [ImagesGet image; MkTemp; WriteWrapper path; Chmod path;
     ContainersRun image (py "/wrapper.sh") (command_to_wrap ep cmd) path] ∧
  wrapper_script_path_host (init_container E image s).2 = Some path.
Proof.
  intros Himg Hcmd Htmp Hwr Hch Hrun. unfold init_container. run.
  pose proof (init_container_body_command E image ep cmd path
                (with_local_container None s) Himg Hcmd Htmp Hwr Hch) as Hb.
  rewrite run_and_check_logs, Hrun in Hb. unfold reraise in Hb.
  unfold try_except. rewrite Hb. unfold init_container_clauses.
  cbn [handler_for].
  assert (∀ r : outcome Container,
    calls (trace (r, log (ContainersRun image (py "/wrapper.sh")
                            (command_to_wrap ep cmd) path)
       (log (Print "Created temporary wrapper script: {}" [AStr path])
         (log (Chmod path)
           (log (WriteWrapper path)
             (with_wrapper_script_path_host (Some path)
               (log MkTemp
                 (log (Print "Command sequence being wrapped: {}"
                         [AList (command_to_wrap ep cmd)])
                   (log (Print "Image Original Cmd: {}" [ACmd cmd])
                     (log (Print "Image Original Entrypoint: {}" [ACmd ep])
                       (log (ImagesGet image)
                         (with_local_container None s))))))))))).2)
    = calls (trace s) ++
      [ImagesGet image; MkTemp; WriteWrapper path; Chmod path;
       ContainersRun image (py "/wrapper.sh") (command_to_wrap ep cmd) path])
    as Hcalls.
  { intros r. cbn [snd trace log with_local_container
      with_wrapper_script_path_host]. rewrite !calls_app, <- !app_assoc.
    reflexivity. }
  destruct (isinstance e ImageNotFound).
  { run. split; [done|]. split; [apply Hcalls|done]. }
  destruct (isinstance e APIError).
  { run. cbn [local_container log with_local_container
      with_wrapper_script_path_host]. run.
    split; [done|]. split; [apply Hcalls|done]. }
  rewrite isinstance_Exception. run.
  split; [done|]. split; [apply Hcalls|done].
Qed.

Lemma init_container_run_failure_witness :
  (init_container refused_run_scenario script_image initial).1
  = Raises (Exn RuntimeError
      (py "Error starting container: "
       ++ py "500 Server Error: port is already allocated")) ∧
  calls (trace (init_container refused_run_scenario script_image initial).2)
  = [ImagesGet script_image; MkTemp;
     WriteWrapper (py "/tmp/strace_wrapper_k3x.sh");
     Chmod (py "/tmp/strace_wrapper_k3x.sh");
     ContainersRun script_image (py "/wrapper.sh") [py "python"; py "app.py"]
       (py "/tmp/strace_wrapper_k3x.sh")] ∧
  wrapper_script_path_host
    (init_container refused_run_scenario script_image initial).2
  = Some (py "/tmp/strace_wrapper_k3x.sh").
Proof.
  apply (init_container_run_failure refused_run_scenario script_image
           CNone (CList [py "python"; py "app.py"])
           (py "/tmp/strace_wrapper_k3x.sh")
           (Exn APIError (py "500 Server Error: port is already allocated"))
           initial).
  - reflexivity.
  - vm_compute. discriminate.
  - reflexivity.
  - reflexivity.
  - reflexivity.
  - reflexivity.
Defined.

(** X14: the script lets no exception out: whatever the engine, the
    endpoint and the file system answer, with exceptions of the classes
    under [Exception] and [os.unlink] raising nothing but [OSError], the
    script runs to the end of its [finally] block. *)
Theorem script_never_raises E :
  raises_only OSError (unlink E) → (script E initial).1 = Returns ().
Proof.
  intros Hos. unfold script. run. unfold try_finally.
  destruct (script_try_returns E (with_trimmer false (with_container None initial)))
    as (s' & ->).
  unfold script_finally. run. destruct (trimmer s'); [|by run]. run.
  by destruct (cleanup_returns E (container s') s' Hos) as (s'' & ->).
Qed.

Lemma script_never_raises_witness :
  (script running_scenario initial).1 = Returns ().
Proof.
  apply (script_never_raises running_scenario). vm_compute. reflexivity.
Defined.

(** X15: the script runs one command only in the container, the [cat] of
    the trace log, and only after an invocation that answered 200; it
    never lists the files of the container. *)
Theorem script_exec_after_200 E c cmd :
  ExecRun c cmd ∈ trace (script E initial).2 →
  cmd = py "cat " ++ log_path_in_container ∧
  ∃ text, post E = Returns (200%Z, text).
Proof.
  intros Hin. split.
  - destruct (cat_only_script E initial) as (evs & Htr & Hq).
    rewrite Htr in Hin. cbn in Hin. rewrite Forall_forall in Hq.
    apply Hq in Hin. cbn in Hin. apply negb_true_iff, negb_false_iff in Hin.
    by apply bool_decide_eq_true in Hin.
  - destruct (post E) as [[status_code body]|e] eqn:Hp.
    + destruct (decide (status_code = 200%Z)) as [->|Hne]; [by eauto|].
      exfalso. destruct (quiet_script E) with (s := initial) as (evs & Htr & Hq).
      { rewrite Hp. by intros text [= ? _]. }
      rewrite Htr in Hin. cbn in Hin. rewrite Forall_forall in Hq.
      by apply Hq in Hin.
    + exfalso. destruct (quiet_script E) with (s := initial) as (evs & Htr & Hq).
      { by rewrite Hp. }
      rewrite Htr in Hin. cbn in Hin. rewrite Forall_forall in Hq.
      by apply Hq in Hin.
Qed.

Lemma script_exec_after_200_witness :
  py "cat /tmp/strace.log" = py "cat " ++ log_path_in_container ∧
  ∃ text, post running_scenario = Returns (200%Z, text).
Proof.
  apply (script_exec_after_200 running_scenario {| id := py "4f2a" |}
           (py "cat /tmp/strace.log")).
  vm_compute. repeat constructor.
Defined.

(** X16: once the temporary file of the wrapper script has been made,
    the script does not end without asking whether the file is there,
    and, if it is, without asking for its deletion: on every way out of
    [init_container] and of the analysis. *)
Theorem script_deletes_wrapper E path :
  mktemp E = Returns path → path ≠ [] →
  MkTemp ∈ trace (script E initial).2 →
  PathExists path ∈ trace (script E initial).2 ∧
  (path_exists E = true → Unlink path ∈ trace (script E initial).2).
Proof.
  intros Htmp Hpath Hin. destruct path as [|ch rest]; [done|].
  rewrite script_trace in *.
  pose proof (script_try_keeps E) as [Hw Ht].
  destruct (emits_init_container (λ _, true) E (λ _ _, eq_refl) script_image
              script_start) as (_ & _ & _ & Ht0 & _).
  rewrite Ht0 in Ht. cbn [trimmer script_start with_wrapper_script_path_host
                            with_trimmer] in Ht.
  set (s2 := (try_except (script_body E) script_clauses
                (with_trimmer false (with_container None initial))).2) in *.
  assert (script_finally E s2 = cleanup E (container s2) s2) as Hfin.
  { unfold script_finally. run. rewrite Ht. by run. }
  rewrite Hfin in *.
  destruct (init_container_wrapper E script_image (ch :: rest) script_start Htmp)
    as [(e & s1 & Hinit & Hw1 & Hf1)|Hw1]; [done| |].
  - exfalso.
    destruct (script_try_init_raises E e s1 Hinit) as (fstring & args & Htry).
    subst s2. rewrite Htry in Hin. cbn [snd] in Hin.
    destruct Hf1 as (evs1 & Htr1 & Hf1).
    destruct (fresh_file_cleanup E (container (log (Print fstring args) s1))
                (log (Print fstring args) s1)) as (evs2 & Htr2 & Hf2).
    rewrite Htr2 in Hin. cbn [trace log] in Hin. rewrite Htr1 in Hin.
    cbn in Hin. rewrite !elem_of_app, list_elem_of_singleton in Hin.
    rewrite Forall_forall in Hf1, Hf2.
    destruct Hin as [[Hin|Hin]|Hin]; [by apply Hf1 in Hin|done|by apply Hf2 in Hin].
  - apply cleanup_asks. by rewrite Hw.
Qed.

Lemma script_deletes_wrapper_witness :
  PathExists (py "/tmp/strace_wrapper_k3x.sh")
    ∈ trace (script exited_scenario initial).2 ∧
  (path_exists exited_scenario = true →
   Unlink (py "/tmp/strace_wrapper_k3x.sh")
     ∈ trace (script exited_scenario initial).2).
Proof.
  apply (script_deletes_wrapper exited_scenario
           (py "/tmp/strace_wrapper_k3x.sh")).
  - reflexivity.
  - vm_compute. discriminate.
  - vm_compute. repeat constructor.
Defined.

(** X17: [get_memory_usage] never raises: an exception of the engine
    becomes the [error] entry of the result; the percentage is [None]
    exactly when the limit is missing or 0. *)
Theorem get_memory_usage_never_raises E container_id s :
  (get_memory_usage E container_id s).1
  = Returns match stats E with
            | Returns (mem_usage, mem_limit) =>
                MemStats mem_usage mem_limit
                  match mem_limit with
                  | Some mem_limit =>
                      if bool_decide (mem_limit = 0%Z) then None
                      else Some (mem_usage, mem_limit)
                  | None => None
                  end
            | Raises e => MemError (exc_str e)
            end.
Proof.
  unfold get_memory_usage, try_except.
  destruct (stats E) as [[mem_usage [[| |]|]]|e]; run; try done.
  cbn [handler_for]. rewrite isinstance_Exception. by run.
Qed.

(** X18: [trigger_lambda_in_container] turns a timeout into status 504
    and any other [RequestException] into status 500; a status code from
    300 on comes back with the text marked as an error response; the
    only exceptions it lets out are those that are no
    [RequestException]. *)
Theorem trigger_lambda_in_container_outcome E s :
  match (trigger_lambda_in_container E s).1 with
  | Returns (status, text) =>
      match post E with
      | Returns (status_code, body) =>
          status = status_code ∧
          text = (if bool_decide (300 ≤ status_code)%Z
                  then py "Error response from Lambda: " ++ body else body)
      | Raises e =>
          isinstance e RequestException = true ∧
          status = (if isinstance e Timeout then 504%Z else 500%Z)
      end
  | Raises e => post E = Raises e ∧ isinstance e RequestException = false
  end.
Proof.
  unfold trigger_lambda_in_container, try_except.
  destruct (post E) as [[status_code body]|e]; run.
  - by destruct (bool_decide (300 ≤ status_code)%Z); run.
  - cbn [handler_for].
    destruct (isinstance e Timeout) eqn:E1.
    + run. split; [|done]. by apply isinstance_Timeout_RequestException.
    + destruct (isinstance e RequestException) eqn:E2; by run.
Qed.

(** X19: [retrieve_strace_log] and [list_container_files] never raise;
    they give the decoded output of the command when its exit code is 0
    and the output decodes, and the empty text or set otherwise; the set
    of files holds no empty name and no name with a line boundary. *)
Theorem retrieval_never_raises E c s :
  (∀ log_path,
     (retrieve_strace_log E c log_path s).1
     = Returns match exec_cat E with
               | Returns (0%Z, output) =>
                   match decode E output with
                   | Some text => text
                   | None => []
                   end
               | _ => []
               end) ∧
  (∀ path,
     ∃ files,
       (list_container_files E c path s).1 = Returns files ∧
       files = match exec_find E with
               | Returns (0%Z, output) =>
                   match decode E output with
                   | Some text =>
                       list_to_set (filter (λ f, f ≠ []) (splitlines text))
                   | None => ∅
                   end
               | _ => ∅
               end ∧
       ([] ∉ files) ∧
       ∀ f, f ∈ files → Forall (λ ch, is_linebreak ch = false) f).
Proof.
  split.
  - intros log_path. unfold retrieve_strace_log, try_except.
    destruct (exec_cat E) as [[exit_code output]|e]; run.
    + unfold decode_bytes.
      destruct (decide (exit_code = 0%Z)) as [->|Hne].
      * rewrite bool_decide_eq_true_2 by done.
        destruct (decode E output) as [text|]; run; [done|].
        cbn [handler_for]. rewrite isinstance_Exception. by run.
      * rewrite bool_decide_eq_false_2 by done. run.
        destruct (decode E output) as [text|]; run.
        -- by destruct exit_code.
        -- cbn [handler_for]. rewrite isinstance_Exception. run.
           by destruct exit_code.
    + cbn [handler_for]. rewrite isinstance_Exception. by run.
  - intros path. eexists. split; [|split; [reflexivity|]].
    + unfold list_container_files, try_except.
      destruct (exec_find E) as [[exit_code output]|e]; run.
      * unfold decode_bytes.
        destruct (decide (exit_code = 0%Z)) as [->|Hne].
        -- rewrite bool_decide_eq_true_2 by done.
           destruct (decode E output) as [text|]; run; [done|].
           cbn [handler_for]. rewrite isinstance_Exception. by run.
        -- rewrite bool_decide_eq_false_2 by done. run.
           destruct (decode E output) as [text|]; run.
           ++ by destruct exit_code.
           ++ cbn [handler_for]. rewrite isinstance_Exception. run.
              by destruct exit_code.
      * cbn [handler_for]. rewrite isinstance_Exception. by run.
    + destruct (exec_find E) as [[[| |] output]|e];
        try (split; [apply not_elem_of_empty|by intros f ?%elem_of_empty]).
      destruct (decode E output) as [text|];
        [|split; [apply not_elem_of_empty|by intros f ?%elem_of_empty]].
      split.
      * rewrite elem_of_list_to_set, list_elem_of_filter. by intros [? _].
      * intros f. rewrite elem_of_list_to_set, list_elem_of_filter.
        intros [_ Hf]. by eapply splitlines_no_break.
Qed.

(** X20: [cleanup] forgets the path of the wrapper script exactly when
    the file was there, also when its deletion failed; a second [cleanup]
    without a container then does nothing. *)
Theorem cleanup_forgets_wrapper E c (ch : N) rest s :
  wrapper_script_path_host s = Some (ch :: rest) →
  raises_only OSError (unlink E) →
  wrapper_script_path_host (cleanup E c s).2
  = (if path_exists E then None else Some (ch :: rest)) ∧
  (path_exists E = true →
   cleanup E None (cleanup E c s).2 = (Returns (), (cleanup E c s).2)).
Proof.
  intros Hw Hos.
  assert (∃ evs, cleanup E c s = remove_wrapper_script E (logs evs s))
    as [evs ->].
  { destruct c as [c|].
    - destruct (cleanup_Some E c s) as (evs & -> & _). by eauto.
    - exists []. unfold cleanup. by run. }
  destruct (frame_logs evs s) as (Hw' & _). rewrite <- Hw' in Hw.
  destruct (remove_wrapper_script_runs E ch rest _ Hw Hos) as (evs' & -> & _).
  cbn [snd]. destruct (path_exists E).
  - split; [done|]. intros _. unfold cleanup, remove_wrapper_script. by run.
  - split; [|done]. destruct (frame_logs evs' (logs evs s)) as (-> & _). done.
Qed.

Lemma cleanup_forgets_wrapper_witness :
  wrapper_script_path_host
    (cleanup running_scenario (Some {| id := py "4f2a" |})
       (with_wrapper_script_path_host (Some (py "/tmp/w.sh")) initial)).2
  = (if path_exists running_scenario then None else Some (py "/tmp/w.sh")) ∧
  (path_exists running_scenario = true →
   cleanup running_scenario None
     (cleanup running_scenario (Some {| id := py "4f2a" |})
        (with_wrapper_script_path_host (Some (py "/tmp/w.sh")) initial)).2
   = (Returns (),
      (cleanup running_scenario (Some {| id := py "4f2a" |})
         (with_wrapper_script_path_host (Some (py "/tmp/w.sh")) initial)).2)).
Proof.
  apply (cleanup_forgets_wrapper running_scenario (Some {| id := py "4f2a" |})
           47 (py "tmp/w.sh")
           (with_wrapper_script_path_host (Some (py "/tmp/w.sh")) initial)).
  - reflexivity.
  - vm_compute. reflexivity.
Defined.

(** X21: after an invocation that answered 200 and a trace log that was
    retrieved and is not empty, the analysis prints the accessed files
    one to a line: the paths of the parse that are not ignorable, each
    once, in the order of [str], and then their number. *)
Theorem analysis_reports_sorted_paths E c s text output log :
  post E = Returns (200%Z, text) →
  exec_cat E = Returns (0%Z, output) → decode E output = Some log →
  log ≠ [] →
  ∃ paths evs1 evs2,
    trace (analysis E c s).2
    = trace s ++ evs1
      ++ ((λ f, Print "{}" [AStr f]) <$> paths)
      ++ Print "Total filtered unique file accesses: {}" [ANat (length paths)]
         :: evs2 ∧
    (∀ f, f ∈ paths ↔
          f ∈ parse_strace_file_accesses log ∧ is_ignorable f = false) ∧
    NoDup paths ∧ StronglySorted (λ a b, str_leb a b = true) paths.
Proof.
  intros Hpost Hcat Hdec Hlog. destruct log as [|ch rest]; [done|].
  set (X := filter_accessed_files (parse_strace_file_accesses (ch :: rest))).
  destruct (sorted_spec X) as (Hin & Hnd & Hs & Hlen).
  exists (sorted X).
  assert (∀ s0, trigger_lambda_in_container E s0
                = (Returns (200%Z, text), log Post s0)) as Htrig.
  { intros s0. unfold trigger_lambda_in_container, try_except. run.
    rewrite Hpost. by run. }
  assert (∀ s0, retrieve_strace_log E c log_path_in_container s0
                = (Returns (ch :: rest),
                   log (ExecRun c (py "cat " ++ log_path_in_container)) s0))
    as Hretr.
  { intros s0. unfold retrieve_strace_log, try_except, decode_bytes. run.
    rewrite Hcat. run. rewrite bool_decide_eq_true_2 by done.
    by rewrite Hdec. }
  unfold analysis. run. rewrite (run_bind_returns _ _ _ _ _ (Htrig _)).
  cbv beta iota. run. rewrite bool_decide_eq_false_2 by (by intros ?).
  rewrite run_bind_assoc. run. rewrite run_bind_assoc.
  rewrite (run_bind_returns _ _ _ _ _ (Hretr _)). cbv beta iota zeta.
  repeat (rewrite run_bind_assoc; run). fold X.
  rewrite (run_bind_returns _ _ _ _ _ (print_each_logs _ _)). run.
  match goal with
  | |- context [(?m ≫= ?k) ?s0] =>
      assert (steps (adds (λ _, true)) (m ≫= k)) as Hrest
        by (unfold get_memory_usage; solve_steps);
      destruct (Hrest s0) as (evs2 & -> & _)
  end.
  cbn [trace log]. rewrite trace_logs. cbn [trace log]. rewrite Hlen.
  eexists [_; _; _; _; _; _; _; _; _], (_ :: evs2).
  split; [by rewrite <- !app_assoc|]. split; [|done].
  intros f. rewrite Hin. apply elem_of_filter_accessed_files.
Qed.

Lemma analysis_reports_sorted_paths_witness :
  ∃ paths evs1 evs2,
    trace (analysis running_scenario {| id := py "4f2a" |} initial).2
    = trace initial ++ evs1
      ++ ((λ f, Print "{}" [AStr f]) <$> paths)
      ++ Print "Total filtered unique file accesses: {}" [ANat (length paths)]
         :: evs2 ∧
    (∀ f, f ∈ paths ↔
          f ∈ parse_strace_file_accesses (two_lines open_tmp_line stat_app_line)
          ∧ is_ignorable f = false) ∧
    NoDup paths ∧ StronglySorted (λ a b, str_leb a b = true) paths.
Proof.
  apply (analysis_reports_sorted_paths running_scenario {| id := py "4f2a" |}
           initial (py "{'statusCode': 200}")
           (two_lines open_tmp_line stat_app_line)
           (two_lines open_tmp_line stat_app_line)).
  - reflexivity.
  - reflexivity.
  - reflexivity.
  - vm_compute. discriminate.
Defined.
